(** * A shallow embedding of the ECA rule engine [eca.py]

    The module [eca.py] implements a small Event-Condition-Action engine:
    events carry a name and a mapping of attributes, rules are Python
    functions decorated with conditions and event names and collected in a
    global [set], and every [Context] owns an event queue and a namespace
    against which the rules are run.

    The embedding follows the source function by function.

    - Python values are the inductive [pyval]; exceptions are the
      inductive [exn]; a computation that may raise returns [Res].
    - Objects that the source mutates (contexts, the thread-local
      storage, the standard error stream) live in a [World] that is
      threaded through the monad [M].  [M] also records, as a ghost log,
      every call the engine makes to a condition or an action, so that
      "is evaluated" and "is invoked" are statements about that log.
    - The rule registry is the global [rules] set together with the
      [conditions] and [events] attributes that [prepare_action] hangs
      on the function objects.  A function object is named by its
      identity [fn_id]; the set is a [gset fn_id].  Membership is that
      of the Python [set].  The order in which a Python [set] is
      iterated follows the hashes of its elements and, where hashes
      collide, the history of the insertions: [elements] is one such
      order, and what is stated of the order of the dispatch is stated
      for every iteration of the set ([set_iteration],
      [_handle_one_iterating]).
    - Conditions and actions are arbitrary Python callables: they are
      total functions on the [World] that may raise.  They cannot change
      the registry while an event is dispatched (registration happens at
      set-up time, before the contexts run), and the interleaving of
      several threads is not modelled: every function is the sequential
      behaviour of the thread that runs it. *)

From Stdlib Require Import ZArith SpecFloat.
From stdpp Require Import base functions gmap sets list strings.

#[local] Set Warnings "-clear-no-such-hyp".

(** ** Python values *)

#[warnings="-register-all"]
Inductive pyval : Type :=
  | PNone
  | PBool (b : bool)
  | PInt (z : Z)
  | PFloat (f : spec_float)
  | PStr (s : string)
  | PList (l : list pyval)
  | PDict (d : gmap string pyval).

(** [bool(v)]: the truth value Python gives to [v]. *)
Definition py_truthy (v : pyval) : bool :=
  match v with
  | PNone => false
  | PBool b => b
  | PInt z => negb (z =? 0)%Z
  | PFloat (S754_zero _) => false
  | PFloat _ => true
  | PStr s => negb (bool_decide (s = ""))
  | PList l => match l with [] => false | _ => true end
  | PDict d => negb (bool_decide (d = ∅))
  end.

(** [a or b] *)
Definition py_or (a b : pyval) : pyval := if py_truthy a then a else b.

(** [v == False]: [bool] is a subclass of [int], so [False] compares
    equal to the numbers that are zero and to nothing else. *)
Definition py_eq_False (v : pyval) : bool :=
  match v with
  | PBool b => negb b
  | PInt z => (z =? 0)%Z
  | PFloat (S754_zero _) => true
  | _ => false
  end.

(** [l.count(False)] *)
Definition count_False (l : list pyval) : nat := length (filter (λ v, py_eq_False v = true) l).

(** [isinstance(v, collections.Mapping)] *)
Definition is_Mapping (v : pyval) : bool :=
  match v with PDict _ => true | _ => false end.

(** ** Exceptions and results *)

Inductive exn : Type :=
  | KeyError (key : string)
  | AssertionError
  | NotImplementedError (msg : string)
  | AttributeError (attr : string)
  | QueueEmpty
  | Exception (payload : pyval).

Inductive Res (A : Type) : Type :=
  | Ok (a : A)
  | Raise (e : exn).
Arguments Ok {A} a.
Arguments Raise {A} e.

(** ** class Event *)

Module Event.

Record t : Type := mk { name : string; data : gmap string pyval }.

(** [Event.__init__(self, name, data=None)]: [PNone] is the default
    argument.  The [assert] is the one of an interpreter that runs
    with assertions on and has [collections.Mapping]. *)
Definition __init__ (name : string) (data : pyval) : Res t :=
  let self_data := py_or data (PDict ∅) in
  match self_data with
  | PDict d => Ok (mk name d)
  | _ => Raise AssertionError
  end.

(** [Event.__getattr__(self, name)]: [self.data[name]]. *)
Definition __getattr__ (self : t) (name : string) : Res pyval :=
  match data self !! name with
  | Some v => Ok v
  | None => Raise (KeyError name)
  end.

(** The attributes that [__init__] sets on the instance: [self.name]
    and [self.data]. *)
Definition instance_attribute (self : t) (n : string) : option pyval :=
  if decide (n = "name") then Some (PStr (name self))
  else if decide (n = "data") then Some (PDict (data self))
  else None.

(** What an attribute lookup finds: a value, or a member of the class
    ([__init__], [__str__], what [object] defines). *)
Inductive found : Type :=
  | Value (v : pyval)
  | ClassMember (n : string).

(** [self.n], the attribute lookup of Python on an instance of
    [Event]: the ordinary lookup finds the attributes of the instance
    and the members of the class, and [__getattr__] is called only for
    a name that the ordinary lookup does not find.  [on_class] tells
    the names that the class and [object] define; [name] and [data]
    are not among them. *)
Definition getattr (on_class : string → bool) (self : t) (n : string) : Res found :=
  match instance_attribute self n with
  | Some v => Ok (Value v)
  | None =>
      if on_class n then Ok (ClassMember n)
      else match __getattr__ self n with
           | Ok v => Ok (Value v)
           | Raise x => Raise x
           end
  end.

(** The names that the body of the class defines. *)
Definition class_body (n : string) : bool :=
  bool_decide (n ∈ ["__init__"; "__getattr__"; "__str__"]).

End Event.

(** ** The world of mutable objects *)

Abbreviation thread_id := nat.
Abbreviation ctx_id := nat.
Abbreviation fn_id := positive.

(** What [_trace] prints; the text of a line ([Event.__str__],
    [util.describe_function]) is formatting only. *)
Inductive TraceLine : Type :=
  | ReceivedEvent (e : Event.t)
  | WorkingOnEvent (e : Event.t)
  | RuleLine (r : fn_id).

(** The fields of a [Context] object: [queue.Queue()] is an unbounded
    FIFO queue, [util.NamespaceDict()] a dictionary. *)
Record ContextObj : Type := mkContext {
  event_queue : list Event.t;
  scope : gmap string pyval;
  done : bool;
  trace : bool }.

(** [contexts] is the heap of [Context] objects; [thread_local] is the
    [context] attribute of the [threading.local] object as each thread
    sees it: [None] when the attribute is not set, [Some None] when it
    is set to [None], [Some (Some c)] when it is set to the context
    [c]; [stderr] is what has been printed on [sys.stderr]. *)
Record World : Type := mkWorld {
  contexts : ctx_id → ContextObj;
  thread_local : thread_id → option (option ctx_id);
  stderr : list TraceLine }.

(** A Python callable used as a condition or as an action: called by
    thread [t] with the namespace of a context (named by the context
    that owns it) and an event. *)
Definition Callable : Type :=
  thread_id → ctx_id → Event.t → World → Res pyval * World.

(** The calls that the engine makes. *)
Inductive Call : Type :=
  | CondCall (r : fn_id) (i : nat) (scope : ctx_id) (e : Event.t)
  | ActionCall (r : fn_id) (scope : ctx_id) (e : Event.t).

Definition callee (c : Call) : fn_id :=
  match c with CondCall r _ _ _ => r | ActionCall r _ _ => r end.

Definition call_scope (c : Call) : ctx_id :=
  match c with CondCall _ _ s _ => s | ActionCall _ s _ => s end.

Definition call_event (c : Call) : Event.t :=
  match c with CondCall _ _ _ e => e | ActionCall _ _ e => e end.

(** The functions whose action a log invokes, in the order of the log. *)
Definition actions_of (l : list Call) : list fn_id :=
  omap (λ c, match c with ActionCall r _ _ => Some r | CondCall _ _ _ _ => None end) l.

(** The log of the evaluation of [n] conditions of [r], from index [i]. *)
Definition cond_calls (r : fn_id) (i n : nat) (scope : ctx_id) (e : Event.t) : list Call :=
  (λ j, CondCall r j scope e) <$> seq i n.

(** ** The monad of the engine: state, exceptions and the call log *)

Record Outcome (A : Type) : Type := mkOutcome {
  result : Res A;
  final : World;
  calls : list Call }.
Arguments mkOutcome {A} result final calls.
Arguments result {A} o.
Arguments final {A} o.
Arguments calls {A} o.

Definition M (A : Type) : Type := World → Outcome A.

Definition ret {A} (a : A) : M A := λ w, mkOutcome (Ok a) w [].

Definition raise {A} (e : exn) : M A := λ w, mkOutcome (Raise e) w [].

Definition bind {A B} (m : M A) (k : A → M B) : M B := λ w,
  let o := m w in
  match result o with
  | Ok a => let o' := k a (final o) in
            mkOutcome (result o') (final o') (calls o ++ calls o')
  | Raise e => mkOutcome (Raise e) (final o) (calls o)
  end.

Notation "x <- m ;; k" := (bind m (λ x, k))
  (at level 100, m at next level, right associativity, only parsing).
Notation "m ;; k" := (bind m (λ _, k))
  (at level 100, right associativity, only parsing).

Definition lift {A} (r : Res A) : M A := λ w, mkOutcome r w [].

(** Projections of an outcome that is in constructor form. *)
Ltac outcome := cbn [result final calls].

Definition modify (f : World → World) : M unit := λ w, mkOutcome (Ok tt) (f w) [].

(** Calling a condition or an action [c]; [what] is the log entry. *)
Definition invoke (c : Callable) (what : Call) (t : thread_id) (scope : ctx_id) (e : Event.t) : M pyval := λ w,
  let '(r, w') := c t scope e w in mkOutcome r w' [what].

(** [try: m except queue.Empty: pass] *)
Definition except_QueueEmpty_pass (m : M unit) : M unit := λ w,
  let o := m w in
  match result o with
  | Raise QueueEmpty => mkOutcome (Ok tt) (final o) (calls o)
  | _ => o
  end.

(** [for r in rs: body(r)] *)
Fixpoint for_each {A} (body : A → M unit) (rs : list A) : M unit :=
  match rs with
  | [] => ret tt
  | r :: rs' => body r ;; for_each body rs'
  end.

Definition set_context (c : ctx_id) (o : ContextObj) (w : World) : World :=
  mkWorld (<[c := o]> (contexts w)) (thread_local w) (stderr w).

Definition set_thread_local (t : thread_id) (v : option (option ctx_id)) (w : World) : World :=
  mkWorld (contexts w) (<[t := v]> (thread_local w)) (stderr w).

Definition print_stderr (line : TraceLine) (w : World) : World :=
  mkWorld (contexts w) (thread_local w) (stderr w ++ [line]).

(** [getattr(thread_local, 'context', None)] as thread [t] evaluates it. *)
Definition current_context (t : thread_id) (w : World) : option ctx_id :=
  default None (thread_local w t).

(** ** The rule registry *)

(** [rules] is the global set; [fn_code r] is the body of the function
    object [r], [fn_conditions] and [fn_events] are the attributes
    [conditions] and [events] of the function objects that have them. *)
Record Registry : Type := mkRegistry {
  rules : gset fn_id;
  fn_code : fn_id → Callable;
  fn_conditions : gmap fn_id (list Callable);
  fn_events : gmap fn_id (gset string) }.

(** [prepare_action(fn)] *)
Definition prepare_action (fn : fn_id) (R : Registry) : Registry :=
  let conditions := <[fn := default [] (fn_conditions R !! fn)]> (fn_conditions R) in
  let events := <[fn := default ∅ (fn_events R !! fn)]> (fn_events R) in
  mkRegistry (rules R ∪ {[fn]}) (fn_code R) conditions events.

(** [condition(c)(fn)] *)
Definition condition (c : Callable) (fn : fn_id) (R : Registry) : Registry :=
  let R' := prepare_action fn R in
  mkRegistry (rules R') (fn_code R')
    (alter (λ l, l ++ [c]) fn (fn_conditions R')) (fn_events R').

(** [event(eventname)(fn)] *)
Definition event (eventname : string) (fn : fn_id) (R : Registry) : Registry :=
  let R' := prepare_action fn R in
  mkRegistry (rules R') (fn_code R') (fn_conditions R')
    (alter (λ s, s ∪ {[eventname]}) fn (fn_events R')).

(** A registration call on an action, and a sequence of them. *)
Inductive RegCall : Type :=
  | AttachCondition (c : Callable)
  | AttachEvent (eventname : string).

Definition register (fn : fn_id) (call : RegCall) (R : Registry) : Registry :=
  match call with
  | AttachCondition c => condition c fn R
  | AttachEvent n => event n fn R
  end.

Definition register_all (fn : fn_id) (cs : list RegCall) (R : Registry) : Registry :=
  foldl (λ R' call, register fn call R') R cs.

(** Registration calls on several functions, in the order of the list. *)
Definition register_seq (cs : list (fn_id * RegCall)) (R : Registry) : Registry :=
  foldl (λ R' c, register c.1 c.2 R') R cs.

(** What a sequence of registration calls attaches. *)
Definition attached_conditions (cs : list RegCall) : list Callable :=
  cs ≫= λ call, match call with AttachCondition c => [c] | AttachEvent _ => [] end.

Definition attached_events (cs : list RegCall) : gset string :=
  ⋃ ((λ call, match call with AttachCondition _ => ∅ | AttachEvent n => {[n]} end) <$> cs).

(** The number of entries of the registry that are the function [fn]. *)
Definition entries_of (fn : fn_id) (R : Registry) : nat :=
  length (filter (λ r, r = fn) (elements (rules R))).

(** Every function of the set has the two attributes, as
    [prepare_action] leaves them. *)
Definition registry_wf (R : Registry) : Prop :=
  ∀ r, r ∈ rules R → is_Some (fn_conditions R !! r) ∧ is_Some (fn_events R !! r).

(** [iter] is an iteration of the [rules] set: it yields every function
    of the set, once.  The order is the business of the set: it follows
    the hashes of the function objects and, where hashes collide, the
    history of the insertions. *)
Definition set_iteration (R : Registry) (iter : list fn_id) : Prop :=
  NoDup iter ∧ ∀ r, r ∈ iter ↔ r ∈ rules R.

(** A callable that returns a value whatever it is called with. *)
Definition never_raises (c : Callable) : Prop :=
  ∀ t scope e w, ∃ v, (c t scope e w).1 = Ok v.

(** The action and the conditions of the rule [r] never raise. *)
Definition never_raising_rule (R : Registry) (r : fn_id) : Prop :=
  never_raises (fn_code R r) ∧
  ∃ conditions, fn_conditions R !! r = Some conditions ∧ Forall never_raises conditions.

(** The module as it is after import: no rule, no attribute. *)
Definition initial_registry (code : fn_id → Callable) : Registry :=
  mkRegistry ∅ code ∅ ∅.

(** ** Context switches *)

(** [with context_switch(context): body], run by thread [t].  The
    generator stashes the binding, sets the new one and yields; when
    [body] ends normally the generator is resumed and restores the
    binding; when [body] raises, the exception is thrown into the
    generator at its [yield], which has no handler around it, so nothing
    after the [yield] runs and the exception goes on. *)
Definition context_switch {A} (t : thread_id) (context : option ctx_id) (body : M A) : M A := λ w,
  let old_context := current_context t w in
  let o := body (set_thread_local t (Some context) w) in
  match result o with
  | Ok a => mkOutcome (Ok a) (set_thread_local t (Some old_context) (final o)) (calls o)
  | Raise e => o
  end.

(** ** class Context *)

Module Context.

(** [Context.__init__(self, trace=False)] *)
Definition __init__ (trace : bool) : ContextObj := mkContext [] ∅ false trace.

(** [Context._trace(self, message)] *)
Definition _trace (self : ctx_id) (message : TraceLine) : M unit := λ w,
  if trace (contexts w self)
  then modify (print_stderr message) w
  else ret tt w.

(** [self.event_queue.put(event)] on the unbounded queue. *)
Definition event_queue_put (self : ctx_id) (event : Event.t) : M unit :=
  modify (λ w,
    let c := contexts w self in
    set_context self (mkContext (event_queue c ++ [event]) (scope c) (done c) (trace c)) w).

(** [self.event_queue.get(timeout=1.0)]: the head of the queue, or
    [queue.Empty] when the wait ends with nothing in the queue. *)
Definition event_queue_get (self : ctx_id) : M Event.t := λ w,
  let c := contexts w self in
  match event_queue c with
  | [] => raise QueueEmpty w
  | event :: q =>
      mkOutcome (Ok event)
        (set_context self (mkContext q (scope c) (done c) (trace c)) w) []
  end.

(** [Context.receive_event(self, event)] *)
Definition receive_event (self : ctx_id) (event : Event.t) : M unit :=
  _trace self (ReceivedEvent event) ;;
  event_queue_put self event.

(** [[r for r in rules if event.name in r.events]], on the iteration
    [rs] of the set; a function object without the attribute [events]
    raises [AttributeError]. *)
Fixpoint select_candidates (R : Registry) (event : Event.t) (rs : list fn_id) : Res (list fn_id) :=
  match rs with
  | [] => Ok []
  | r :: rs' =>
      match fn_events R !! r with
      | None => Raise (AttributeError "events")
      | Some events =>
          match select_candidates R event rs' with
          | Ok cs => Ok (if bool_decide (Event.name event ∈ events) then r :: cs else cs)
          | Raise e => Raise e
          end
      end
  end.

Definition candidates (R : Registry) (event : Event.t) : Res (list fn_id) :=
  select_candidates R event (elements (rules R)).

(** [[c(self.scope, event) for c in conditions]]; [i] is the index of
    the first condition of the list. *)
Fixpoint eval_conditions (t : thread_id) (self : ctx_id) (event : Event.t)
    (r : fn_id) (i : nat) (conditions : list Callable) : M (list pyval) :=
  match conditions with
  | [] => ret []
  | c :: cs =>
      v <- invoke c (CondCall r i self event) t self event ;;
      vs <- eval_conditions t self event r (S i) cs ;;
      ret (v :: vs)
  end.

(** The body of the loop [for r in candidates]. *)
Definition handle_candidate (R : Registry) (t : thread_id) (self : ctx_id)
    (event : Event.t) (r : fn_id) : M unit :=
  match fn_conditions R !! r with
  | None => raise (AttributeError "conditions")
  | Some conditions =>
      results <- eval_conditions t self event r 0 conditions ;;
      if Nat.eqb (count_False results) 0
      then
        _trace self (RuleLine r) ;;
        _ <- invoke (fn_code R r) (ActionCall r self event) t self event ;;
        ret tt
      else ret tt
  end.

(** [Context._handle_one(self)], run by thread [t]. *)
Definition _handle_one (R : Registry) (t : thread_id) (self : ctx_id) : M unit :=
  except_QueueEmpty_pass (
    event <- event_queue_get self ;;
    _trace self (WorkingOnEvent event) ;;
    candidates <- lift (candidates R event) ;;
    for_each (handle_candidate R t self event) candidates).

(** [_handle_one] with the iteration of the [rules] set made explicit:
    [iter] is the order in which [for r in rules] yields the functions
    of the set.  [_handle_one] is the instance at [elements (rules R)]. *)
Definition _handle_one_iterating (iter : list fn_id) (R : Registry) (t : thread_id)
    (self : ctx_id) : M unit :=
  except_QueueEmpty_pass (
    event <- event_queue_get self ;;
    _trace self (WorkingOnEvent event) ;;
    candidates <- lift (select_candidates R event iter) ;;
    for_each (handle_candidate R t self event) candidates).

(** The first [n] turns of [while not self.done: self._handle_one()]:
    the result is [true] when the loop has ended within them, [false]
    when it is still running after them. *)
Fixpoint run_loop (n : nat) (R : Registry) (t : thread_id) (self : ctx_id) : M bool := λ w,
  if done (contexts w self) then ret true w
  else match n with
       | 0 => ret false w
       | S n' => (_handle_one R t self ;; run_loop n' R t self) w
       end.

(** [Context.run(self)], called by thread [t] and observed for [n]
    turns of its loop: [None] when the loop is still running after
    them, the outcome of the call otherwise. *)
Definition run (n : nat) (R : Registry) (t : thread_id) (self : ctx_id) : World → option (Outcome unit) := λ w,
  let o := context_switch t (Some self) (run_loop n R t self) w in
  match result o with
  | Ok true => Some (mkOutcome (Ok tt) (final o) (calls o))
  | Ok false => None
  | Raise x => Some (mkOutcome (Raise x) (final o) (calls o))
  end.

End Context.

(** ** Event emission *)

Definition no_current_context : string :=
  "Can't invoke new_event without a current context.".

(** [new_event(eventname, data=None)], called by thread [t]. *)
Definition new_event (t : thread_id) (eventname : string) (data : pyval) : M unit :=
  e <- lift (Event.__init__ eventname data) ;;
  λ w,
    match current_context t w with
    | None => raise (NotImplementedError no_current_context) w
    | Some context => Context.receive_event context e w
    end.

(** ** Concrete programs and worlds

    The instances on which the properties below are evaluated. *)

Module Fixtures.

(** [try: m except Exception: pass] *)
Definition try_except_pass (m : M unit) : M unit := λ w,
  let o := m w in
  match result o with
  | Ok _ => o
  | Raise _ => mkOutcome (Ok tt) (final o) (calls o)
  end.

(** A callable that returns [v] and touches nothing. *)
Definition returns (v : pyval) : Callable := λ _ _ _ w, (Ok v, w).

(** Every function body is [lambda scope, event: None]. *)
Definition code : fn_id → Callable := λ _, returns PNone.

(** No context object has received anything, no thread has a context. *)
Definition world0 : World := mkWorld (λ _, Context.__init__ false) (λ _, None) [].

Definition tick : Event.t := Event.mk "tick" ∅.

(** Context [0] has received the event [tick]. *)
Definition world_tick : World := final (Context.receive_event 0 tick world0).

(** Thread [0] is inside [with context_switch(A)], [A] being context [1]. *)
Definition world_A : World := set_thread_local 0 (Some (Some 1)) world0.

(** [raise Exception()] *)
Definition boom : M unit := raise (Exception PNone).

(** Function [1] on [tick] with one condition that returns [v]. *)
Definition rule_with_condition (v : pyval) : Registry :=
  condition (returns v) 1 (event "tick" 1 (initial_registry code)).

(** Functions [1] and [2] on [tick], registered in that order, and in
    the other order. *)
Definition first_1_then_2 : Registry :=
  event "tick" 2 (event "tick" 1 (initial_registry code)).

Definition first_2_then_1 : Registry :=
  event "tick" 1 (event "tick" 2 (initial_registry code)).

(** Thread [0], under context [1], enters a scope on context [2] whose
    body raises, handles the exception, and emits an event. *)
Definition nested_scopes : M unit :=
  context_switch 0 (Some 1)
    (try_except_pass (context_switch 0 (Some 2) boom) ;;
     new_event 0 "ping" PNone).

(** A callable that raises [x]. *)
Definition raises (x : exn) : Callable := λ _ _ _ w, (Raise x, w).

(** An action that sets the [done] flag of the context it runs for. *)
Definition stop : Callable := λ _ self _ w,
  let c := contexts w self in
  (Ok PNone, set_context self (mkContext (event_queue c) (scope c) true (trace c)) w).

(** Function [1] on [tick], without condition, with body [body]. *)
Definition rule_with_action (body : Callable) : Registry :=
  event "tick" 1 (initial_registry (λ _, body)).

(** Context [0] has [tick] in its queue and its [done] flag set. *)
Definition world_stopped : World := (stop 0 0 tick world_tick).2.

(** Function [1] on [tick], function [2] on [tock], function [3] with
    a condition and no event name. *)
Definition mixed_rules : Registry :=
  condition (returns (PBool true)) 3
    (event "tock" 2 (event "tick" 1 (initial_registry code))).

(** Function [1] is in [rules] without having been prepared. *)
Definition unprepared_rule : Registry := mkRegistry {[ 1%positive ]} code ∅ ∅.

End Fixtures.

(** * Properties *)

(** ** Values *)



Lemma count_False_0 (l : list pyval) :
  count_False l = 0 ↔ Forall (λ v, py_eq_False v = false) l.
Proof.
  unfold count_False. induction l as [|v l IH]; simpl.
  - split; [constructor | reflexivity].
  - rewrite filter_cons, Forall_cons. destruct (py_eq_False v) eqn:Hv.
    + rewrite decide_True by reflexivity. simpl. split; [discriminate |].
      intros [? _]. discriminate.
    + rewrite decide_False by discriminate. rewrite IH. tauto.
Qed.

(** ** Events *)

Lemma Event_init_Ok (name : string) (data : pyval) (e : Event.t) :
  Event.__init__ name data = Ok e ↔
  Event.name e = name ∧ py_or data (PDict ∅) = PDict (Event.data e).
Proof.
  unfold Event.__init__. destruct (py_or data (PDict ∅)) eqn:Hor; split;
    try discriminate; try (intros [_ ?]; discriminate).
  - intros [= <-]. done.
  - destruct e as [n d']. simpl. intros [-> ?]. congruence.
Qed.

Lemma Event_init_Raise (name : string) (data : pyval) (x : exn) :
  Event.__init__ name data = Raise x ↔
  x = AssertionError ∧ is_Mapping (py_or data (PDict ∅)) = false.
Proof.
  unfold Event.__init__. destruct (py_or data (PDict ∅)); simpl; split;
    try discriminate; try (intros [_ ?]; discriminate);
    try (intros [= <-]; done); intros [-> _]; done.
Qed.

(** The hook itself: a name that the data mapping does not have raises
    the key error of the mapping, a name that it has gives the value
    mapped to it. *)
Lemma getattr_hook_absent_present (e : Event.t) (n : string) :
  (Event.data e !! n = None → Event.__getattr__ e n = Raise (KeyError n)) ∧
  (∀ v, Event.data e !! n = Some v → Event.__getattr__ e n = Ok v).
Proof.
  unfold Event.__getattr__. split.
  - intros ->. reflexivity.
  - intros v ->. reflexivity.
Qed.

(** C8, as the code has it: no name is refused, the empty one
    included; without a data argument the event has the empty mapping,
    and with a mapping it has that mapping. *)
Theorem Event_init_any_name (name : string) :
  Event.__init__ name PNone = Ok (Event.mk name ∅) ∧
  ∀ d, Event.__init__ name (PDict d) = Ok (Event.mk name d).
Proof.
  split; [reflexivity |]. intros d. unfold Event.__init__, py_or. simpl.
  case_bool_decide as Hd; simpl; [by rewrite Hd | done].
Qed.

(** C8 as stated fails: the empty name is accepted. *)
Lemma Event_init_empty_name_accepted :
  Event.__init__ "" PNone = Ok (Event.mk "" ∅).
Proof. reflexivity. Qed.

(** C10: a data argument that is truthy and not a mapping makes the
    construction fail with the assertion error, whatever the name, and
    a construction that succeeds stores [data or {}], which is then a
    mapping. *)
Theorem Event_init_data_must_be_mapping (name : string) (data : pyval) :
  (py_truthy data = true → is_Mapping data = false →
   Event.__init__ name data = Raise AssertionError) ∧
  (∀ e, Event.__init__ name data = Ok e →
        py_or data (PDict ∅) = PDict (Event.data e) ∧
        is_Mapping (py_or data (PDict ∅)) = true).
Proof.
  split.
  - intros Ht Hm. apply Event_init_Raise. split; [done |].
    unfold py_or. by rewrite Ht.
  - intros e [_ He]%Event_init_Ok. by rewrite He.
Qed.

(** ** The monad *)

Lemma bind_Ok {A B} (m : M A) (k : A → M B) (w : World) (a : A) :
  result (m w) = Ok a →
  bind m k w = mkOutcome (result (k a (final (m w)))) (final (k a (final (m w))))
                 (calls (m w) ++ calls (k a (final (m w)))).
Proof. unfold bind. by intros ->. Qed.

Lemma bind_Raise {A B} (m : M A) (k : A → M B) (w : World) (x : exn) :
  result (m w) = Raise x →
  bind m k w = mkOutcome (Raise x) (final (m w)) (calls (m w)).
Proof. unfold bind. by intros ->. Qed.

Lemma bind_calls_elem {A B} (m : M A) (k : A → M B) (w : World) (c : Call) :
  c ∈ calls (bind m k w) →
  c ∈ calls (m w) ∨ ∃ a, result (m w) = Ok a ∧ c ∈ calls (k a (final (m w))).
Proof.
  unfold bind. destruct (result (m w)) as [a|x] eqn:Hm; simpl.
  - rewrite elem_of_app. intros [?|?]; eauto.
  - eauto.
Qed.

Lemma except_QueueEmpty_pass_calls (m : M unit) (w : World) :
  calls (except_QueueEmpty_pass m w) = calls (m w).
Proof.
  unfold except_QueueEmpty_pass. by destruct (result (m w)) as [|[]].
Qed.

Lemma trace_calls (self : ctx_id) (line : TraceLine) (w : World) :
  calls (Context._trace self line w) = [] ∧
  result (Context._trace self line w) = Ok tt.
Proof. unfold Context._trace. by destruct (trace _). Qed.

Lemma invoke_calls (c : Callable) (what : Call) t scope e (w : World) :
  calls (invoke c what t scope e w) = [what].
Proof. unfold invoke. by destruct (c t scope e w). Qed.

(** ** The list comprehension over the conditions *)

Lemma eval_conditions_calls t self e r (conditions : list Callable) :
  ∀ i w results,
    result (Context.eval_conditions t self e r i conditions w) = Ok results →
    calls (Context.eval_conditions t self e r i conditions w)
      = cond_calls r i (length conditions) self e ∧
    length results = length conditions.
Proof.
  induction conditions as [|c cs IH]; intros i w results; simpl.
  - intros [= <-]. done.
  - destruct (result (invoke c (CondCall r i self e) t self e w)) as [v|x] eqn:Hv;
      [rewrite (bind_Ok _ _ _ _ Hv) | by rewrite (bind_Raise _ _ _ _ Hv)].
    outcome.
    destruct (result (Context.eval_conditions t self e r (S i) cs
                        (final (invoke c (CondCall r i self e) t self e w))))
      as [vs|x] eqn:Hvs;
      [rewrite (bind_Ok _ _ _ _ Hvs) | by rewrite (bind_Raise _ _ _ _ Hvs)].
    outcome. intros [= <-]. destruct (IH _ _ _ Hvs) as [-> Hlen].
    rewrite invoke_calls, app_nil_r. simpl. by rewrite Hlen.
Qed.

Lemma eval_conditions_calls_elem t self e r (conditions : list Callable) :
  ∀ i w call,
    call ∈ calls (Context.eval_conditions t self e r i conditions w) →
    ∃ j, call = CondCall r j self e.
Proof.
  induction conditions as [|c cs IH]; intros i w call; simpl.
  - by intros ?%elem_of_nil.
  - intros [Hc|(v & _ & Hc)]%bind_calls_elem.
    + rewrite invoke_calls in Hc. apply list_elem_of_singleton in Hc. eauto.
    + apply bind_calls_elem in Hc as [Hc|(vs & _ & Hc)]; [by eapply IH |].
      by apply elem_of_nil in Hc.
Qed.

(** ** One candidate *)

Lemma handle_candidate_calls R t self e r (conditions : list Callable) w results :
  fn_conditions R !! r = Some conditions →
  result (Context.eval_conditions t self e r 0 conditions w) = Ok results →
  calls (Context.handle_candidate R t self e r w)
    = cond_calls r 0 (length conditions) self e
      ++ (if Nat.eqb (count_False results) 0 then [ActionCall r self e] else []).
Proof.
  intros Hc Hres. unfold Context.handle_candidate. rewrite Hc.
  rewrite (bind_Ok _ _ _ _ Hres). outcome.
  destruct (eval_conditions_calls _ _ _ _ _ _ _ _ Hres) as [-> _].
  f_equal. destruct (Nat.eqb _ _); [|done].
  set (w1 := final _).
  destruct (trace_calls self (RuleLine r) w1) as [Hcalls Hok].
  rewrite (bind_Ok _ _ _ _ Hok). outcome. rewrite Hcalls.
  unfold bind. destruct (result (invoke _ _ _ _ _ _)); outcome;
    rewrite invoke_calls; by rewrite ?app_nil_r.
Qed.

Lemma handle_candidate_calls_elem R t self e r w call :
  call ∈ calls (Context.handle_candidate R t self e r w) →
  callee call = r ∧ call_scope call = self ∧ call_event call = e.
Proof.
  unfold Context.handle_candidate.
  destruct (fn_conditions R !! r) as [conditions|]; [|by intros ?%elem_of_nil].
  intros [Hc|(results & _ & Hc)]%bind_calls_elem.
  - apply eval_conditions_calls_elem in Hc as [j ->]. done.
  - destruct (Nat.eqb _ _); [|by apply elem_of_nil in Hc].
    apply bind_calls_elem in Hc as [Hc|([] & _ & Hc)].
    + destruct (trace_calls self (RuleLine r) (final (Context.eval_conditions t self e r 0 conditions w))) as [Hn _].
      rewrite Hn in Hc. by apply elem_of_nil in Hc.
    + apply bind_calls_elem in Hc as [Hc|(v & _ & Hc)].
      * rewrite invoke_calls in Hc. by apply list_elem_of_singleton in Hc as ->.
      * by apply elem_of_nil in Hc.
Qed.

Lemma handle_candidate_actions R t self e r w :
  actions_of (calls (Context.handle_candidate R t self e r w)) = [] ∨
  actions_of (calls (Context.handle_candidate R t self e r w)) = [r].
Proof.
  assert (Hcond : ∀ i n, actions_of (cond_calls r i n self e) = []).
  { intros i n. revert i. induction n as [|n IH]; intros i; [done|]. apply IH. }
  assert (Hpre : ∀ cs i w', actions_of (calls (Context.eval_conditions t self e r i cs w')) = []).
  { induction cs as [|c cs IH]; intros i w'; simpl; [done|].
    destruct (result (invoke c (CondCall r i self e) t self e w')) eqn:Hv;
      [rewrite (bind_Ok _ _ _ _ Hv) | rewrite (bind_Raise _ _ _ _ Hv)];
      outcome; rewrite invoke_calls; [|done].
    destruct (result (Context.eval_conditions t self e r (S i) cs
                        (final (invoke c (CondCall r i self e) t self e w')))) eqn:Hvs;
      [rewrite (bind_Ok _ _ _ _ Hvs) | rewrite (bind_Raise _ _ _ _ Hvs)];
      outcome; rewrite ?app_nil_r; apply IH. }
  unfold Context.handle_candidate.
  destruct (fn_conditions R !! r) as [conditions|] eqn:Hc; [|by left].
  destruct (result (Context.eval_conditions t self e r 0 conditions w)) as [results|x] eqn:Hres.
  - pose proof (handle_candidate_calls _ _ _ _ _ _ _ _ Hc Hres) as Hcalls.
    unfold Context.handle_candidate in Hcalls. rewrite Hc in Hcalls. rewrite Hcalls.
    unfold actions_of. rewrite omap_app. fold (actions_of (cond_calls r 0 (length conditions) self e)).
    rewrite Hcond. destruct (Nat.eqb _ _); simpl; eauto.
  - rewrite (bind_Raise _ _ _ _ Hres). outcome. left. apply Hpre.
Qed.

(** ** The loop over the candidates *)

(** The loop runs its body on the elements in order, until a body
    raises. *)
Lemma for_each_cons_calls {A} (body : A → M unit) (r : A) (rs : list A) (w : World) :
  calls (for_each body (r :: rs) w)
    = calls (body r w)
      ++ match result (body r w) with
         | Ok _ => calls (for_each body rs (final (body r w)))
         | Raise _ => []
         end.
Proof.
  simpl. unfold bind. destruct (result (body r w)); outcome; by rewrite ?app_nil_r.
Qed.

Lemma for_each_calls_elem R t self e (cs : list fn_id) :
  ∀ w call,
    call ∈ calls (for_each (Context.handle_candidate R t self e) cs w) →
    callee call ∈ cs ∧ call_scope call = self ∧ call_event call = e.
Proof.
  induction cs as [|r cs IH]; intros w call; simpl.
  - by intros ?%elem_of_nil.
  - intros [Hc|([] & _ & Hc)]%bind_calls_elem.
    + apply handle_candidate_calls_elem in Hc as (<- & ? & ?).
      split; [left | done].
    + apply IH in Hc as (? & ? & ?). split; [by right | done].
Qed.

Lemma for_each_actions_sublist R t self e (cs : list fn_id) :
  ∀ w, actions_of (calls (for_each (Context.handle_candidate R t self e) cs w))
         `sublist_of` cs.
Proof.
  induction cs as [|r cs IH]; intros w; simpl; [done|].
  assert (Hstep : ∀ l, l `sublist_of` cs →
            actions_of (calls (Context.handle_candidate R t self e r w)) ++ l
              `sublist_of` r :: cs).
  { intros l Hl.
    destruct (handle_candidate_actions R t self e r w) as [-> | ->]; simpl.
    - by apply sublist_cons.
    - by apply sublist_skip. }
  destruct (result (Context.handle_candidate R t self e r w)) as [[]|x] eqn:Hr.
  - rewrite (bind_Ok _ _ _ _ Hr). outcome. unfold actions_of at 1.
    rewrite omap_app. apply Hstep, IH.
  - rewrite (bind_Raise _ _ _ _ Hr). outcome.
    rewrite <- (app_nil_r (actions_of _)). apply Hstep, sublist_nil_l.
Qed.

(** ** The selection of the candidates *)

Lemma select_candidates_sublist R e (rs cs : list fn_id) :
  Context.select_candidates R e rs = Ok cs → cs `sublist_of` rs.
Proof.
  revert cs. induction rs as [|r rs IH]; intros cs; simpl.
  - by intros [= <-].
  - destruct (fn_events R !! r) as [evs|]; [|discriminate].
    destruct (Context.select_candidates R e rs) as [cs'|]; [|discriminate].
    intros [= <-]. case_bool_decide.
    + apply sublist_skip. by apply IH.
    + apply sublist_cons. by apply IH.
Qed.

Lemma select_candidates_Ok R e (rs : list fn_id) :
  (∀ r, r ∈ rs → is_Some (fn_events R !! r)) →
  ∃ cs, Context.select_candidates R e rs = Ok cs ∧
    ∀ r, r ∈ cs ↔ r ∈ rs ∧ ∃ evs, fn_events R !! r = Some evs ∧ Event.name e ∈ evs.
Proof.
  induction rs as [|r rs IH]; intros Hwf; simpl.
  - exists []. split; [done|]. intros r. split; [by intros ?%elem_of_nil|].
    by intros [?%elem_of_nil _].
  - destruct (Hwf r) as [evs Hevs]; [left|]. rewrite Hevs.
    destruct IH as (cs & -> & Hcs); [intros; apply Hwf; by right|].
    eexists. split; [done|]. intros r'. case_bool_decide as Hin.
    + rewrite !elem_of_cons, Hcs. split.
      * intros [->|[? ?]]; eauto.
      * intros [[->|?] ?]; eauto.
    + rewrite elem_of_cons, Hcs. split.
      * intros [? ?]; eauto.
      * intros [[->|?] (evs' & Hevs' & ?)]; [|eauto]. congruence.
Qed.

(** ** One turn of the event loop *)

Lemma handle_one_dispatch R t self w e q cs :
  event_queue (contexts w self) = e :: q →
  Context.candidates R e = Ok cs →
  ∃ w1, calls (Context._handle_one R t self w)
        = calls (for_each (Context.handle_candidate R t self e) cs w1).
Proof.
  intros Hq Hcs. unfold Context._handle_one.
  rewrite except_QueueEmpty_pass_calls.
  assert (Hget : result (Context.event_queue_get self w) = Ok e).
  { unfold Context.event_queue_get. by rewrite Hq. }
  assert (Hgetc : calls (Context.event_queue_get self w) = []).
  { unfold Context.event_queue_get. by rewrite Hq. }
  rewrite (bind_Ok _ _ _ _ Hget). outcome. rewrite Hgetc.
  set (w0 := final (Context.event_queue_get self w)).
  destruct (trace_calls self (WorkingOnEvent e) w0) as [Htc Htr].
  rewrite (bind_Ok _ _ _ _ Htr). outcome. rewrite Htc.
  set (w1 := final (Context._trace self (WorkingOnEvent e) w0)).
  assert (Hl : result (lift (Context.candidates R e) w1) = Ok cs) by (by rewrite <- Hcs).
  rewrite (bind_Ok _ _ _ _ Hl). outcome. by exists w1.
Qed.

Lemma handle_one_empty_queue R t self w :
  event_queue (contexts w self) = [] →
  Context._handle_one R t self w = mkOutcome (Ok tt) w [].
Proof.
  intros Hq. unfold Context._handle_one, except_QueueEmpty_pass, bind.
  unfold Context.event_queue_get. by rewrite Hq.
Qed.

Lemma handle_one_calls_cases R t self w :
  calls (Context._handle_one R t self w) = [] ∨
  ∃ e q cs w1,
    event_queue (contexts w self) = e :: q ∧
    Context.candidates R e = Ok cs ∧
    calls (Context._handle_one R t self w)
      = calls (for_each (Context.handle_candidate R t self e) cs w1).
Proof.
  destruct (event_queue (contexts w self)) as [|e q] eqn:Hq.
  - left. by rewrite handle_one_empty_queue.
  - destruct (Context.candidates R e) as [cs|x] eqn:Hcs.
    + right. destruct (handle_one_dispatch R t self w e q cs Hq Hcs) as [w1 Hw1].
      by exists e, q, cs, w1.
    + left. unfold Context._handle_one. rewrite except_QueueEmpty_pass_calls.
      assert (Hget : result (Context.event_queue_get self w) = Ok e).
      { unfold Context.event_queue_get. by rewrite Hq. }
      assert (Hgetc : calls (Context.event_queue_get self w) = []).
      { unfold Context.event_queue_get. by rewrite Hq. }
      rewrite (bind_Ok _ _ _ _ Hget). outcome. rewrite Hgetc.
      set (w0 := final (Context.event_queue_get self w)).
      destruct (trace_calls self (WorkingOnEvent e) w0) as [Htc Htr].
      rewrite (bind_Ok _ _ _ _ Htr). outcome. rewrite Htc.
      set (w1 := final (Context._trace self (WorkingOnEvent e) w0)).
      assert (Hl : result (lift (Context.candidates R e) w1) = Raise x) by (by rewrite <- Hcs).
      by rewrite (bind_Raise _ _ _ _ Hl).
Qed.

(** ** Registration *)

Lemma prepare_action_conditions fn R k :
  fn_conditions (prepare_action fn R) !! k
    = if decide (k = fn) then Some (default [] (fn_conditions R !! fn))
      else fn_conditions R !! k.
Proof.
  unfold prepare_action. simpl. case_decide as Hk.
  - subst. apply lookup_insert_eq.
  - by apply lookup_insert_ne.
Qed.

Lemma prepare_action_events fn R k :
  fn_events (prepare_action fn R) !! k
    = if decide (k = fn) then Some (default ∅ (fn_events R !! fn))
      else fn_events R !! k.
Proof.
  unfold prepare_action. simpl. case_decide as Hk.
  - subst. apply lookup_insert_eq.
  - by apply lookup_insert_ne.
Qed.

Lemma register_rules fn call R : rules (register fn call R) = rules R ∪ {[fn]}.
Proof. by destruct call. Qed.

Lemma register_code fn call R : fn_code (register fn call R) = fn_code R.
Proof. by destruct call. Qed.

Lemma register_conditions fn call R k :
  fn_conditions (register fn call R) !! k
    = if decide (k = fn)
      then Some (default [] (fn_conditions R !! fn) ++ attached_conditions [call])
      else fn_conditions R !! k.
Proof.
  destruct call as [c|n]; unfold register, condition, event; cbn [fn_conditions].
  - fold (fn_conditions (prepare_action fn R)).
    case_decide as Hk.
    + subst. rewrite lookup_alter_eq, prepare_action_conditions.
      by rewrite decide_True.
    + rewrite lookup_alter_ne by done. rewrite prepare_action_conditions.
      by rewrite decide_False.
  - rewrite prepare_action_conditions. case_decide; [|done].
    simpl. by rewrite app_nil_r.
Qed.

Lemma register_events fn call R k :
  fn_events (register fn call R) !! k
    = if decide (k = fn)
      then Some (default ∅ (fn_events R !! fn) ∪ attached_events [call])
      else fn_events R !! k.
Proof.
  destruct call as [c|n]; unfold register, condition, event; cbn [fn_events].
  - rewrite prepare_action_events. case_decide; [|done].
    f_equal. unfold attached_events. simpl. set_solver.
  - fold (fn_events (prepare_action fn R)).
    case_decide as Hk.
    + subst. rewrite lookup_alter_eq, prepare_action_events.
      rewrite decide_True by done. simpl. f_equal.
      unfold attached_events. simpl. set_solver.
    + rewrite lookup_alter_ne by done. rewrite prepare_action_events.
      by rewrite decide_False.
Qed.

Lemma Registry_eq (R1 R2 : Registry) :
  rules R1 = rules R2 → fn_code R1 = fn_code R2 →
  (∀ k, fn_conditions R1 !! k = fn_conditions R2 !! k) →
  (∀ k, fn_events R1 !! k = fn_events R2 !! k) →
  R1 = R2.
Proof.
  destruct R1, R2. simpl. intros -> -> Hc He.
  f_equal; by apply map_eq.
Qed.

Lemma register_commute f g a b R :
  f ≠ g → register f a (register g b R) = register g b (register f a R).
Proof.
  intros Hfg. apply Registry_eq.
  - rewrite !register_rules. set_solver.
  - by rewrite !register_code.
  - intros k. rewrite !register_conditions.
    repeat case_decide; subst; try done;
      rewrite register_conditions; by rewrite decide_False.
  - intros k. rewrite !register_events.
    repeat case_decide; subst; try done;
      rewrite register_events; by rewrite decide_False.
Qed.

Lemma register_wf fn call R : registry_wf R → registry_wf (register fn call R).
Proof.
  intros Hwf r. rewrite register_rules, register_conditions, register_events.
  case_decide; [by eauto|]. intros Hr. apply Hwf. set_solver.
Qed.

Lemma initial_registry_wf code : registry_wf (initial_registry code).
Proof. intros r. unfold initial_registry. simpl. set_solver. Qed.

Lemma register_all_cons fn call cs R :
  register_all fn (call :: cs) R = register_all fn cs (register fn call R).
Proof. reflexivity. Qed.

Lemma filter_eq_absent (x : fn_id) (l : list fn_id) :
  x ∉ l → filter (λ r, r = x) l = [].
Proof.
  induction l as [|y l IH]; [done|]. intros Hx.
  rewrite filter_cons, decide_False.
  - apply IH. intros ?. apply Hx. by right.
  - intros ->. apply Hx. by left.
Qed.

Lemma entries_of_1 fn R : fn ∈ rules R → entries_of fn R = 1.
Proof.
  unfold entries_of. intros Hin%elem_of_elements.
  pose proof (NoDup_elements (rules R)) as Hnd.
  induction Hnd as [|r l Hr Hnd IH]; [by apply elem_of_nil in Hin|].
  rewrite filter_cons. apply elem_of_cons in Hin as [<-|Hin].
  - rewrite decide_True by done. by rewrite filter_eq_absent.
  - rewrite decide_False; [by apply IH|]. by intros ->.
Qed.

Lemma register_all_spec fn (cs : list RegCall) :
  ∀ call R,
    rules (register_all fn (call :: cs) R) = rules R ∪ {[fn]} ∧
    fn_code (register_all fn (call :: cs) R) = fn_code R ∧
    (∀ k, fn_conditions (register_all fn (call :: cs) R) !! k
          = if decide (k = fn)
            then Some (default [] (fn_conditions R !! fn) ++ attached_conditions (call :: cs))
            else fn_conditions R !! k) ∧
    (∀ k, fn_events (register_all fn (call :: cs) R) !! k
          = if decide (k = fn)
            then Some (default ∅ (fn_events R !! fn) ∪ attached_events (call :: cs))
            else fn_events R !! k).
Proof.
  induction cs as [|call' cs IH]; intros call R.
  - split_and!; [apply register_rules | apply register_code
                 | apply register_conditions | apply register_events].
  - rewrite register_all_cons.
    destruct (IH call' (register fn call R)) as (Hr & Hcode & Hc & He).
    split_and!.
    + rewrite Hr, register_rules. set_solver.
    + by rewrite Hcode, register_code.
    + intros k. rewrite Hc, !register_conditions.
      case_decide; [|done]. rewrite decide_True by done. simpl.
      by rewrite app_nil_r, <- !app_assoc.
    + intros k. rewrite He, !register_events.
      case_decide; [|done]. rewrite decide_True by done. simpl. f_equal.
      unfold attached_events. simpl. set_solver.
Qed.

(** C4: after any non-empty sequence of registration calls on an
    action, conditions and event names in any order, the registry has
    exactly one entry for the action and no entry for another function
    is added or changed; [prepare_action] installs the empty list of
    conditions and the empty set of event names on an action that has
    none and keeps the ones of an action that has them, and all the
    calls accumulate, in their order, on that one entry. *)
Theorem registration_keeps_one_entry fn call (cs : list RegCall) R :
  entries_of fn (register_all fn (call :: cs) R) = 1 ∧
  rules (register_all fn (call :: cs) R) = rules R ∪ {[fn]} ∧
  (∀ g, g ≠ fn →
        entries_of g (register_all fn (call :: cs) R) = entries_of g R ∧
        fn_conditions (register_all fn (call :: cs) R) !! g = fn_conditions R !! g ∧
        fn_events (register_all fn (call :: cs) R) !! g = fn_events R !! g) ∧
  fn_conditions (prepare_action fn R) !! fn = Some (default [] (fn_conditions R !! fn)) ∧
  fn_events (prepare_action fn R) !! fn = Some (default ∅ (fn_events R !! fn)) ∧
  fn_conditions (register_all fn (call :: cs) R) !! fn
    = Some (default [] (fn_conditions R !! fn) ++ attached_conditions (call :: cs)) ∧
  fn_events (register_all fn (call :: cs) R) !! fn
    = Some (default ∅ (fn_events R !! fn) ∪ attached_events (call :: cs)).
Proof.
  destruct (register_all_spec fn cs call R) as (Hr & _ & Hc & He).
  split_and!.
  - apply entries_of_1. rewrite Hr. set_solver.
  - done.
  - intros g Hg. rewrite Hc, He, !decide_False by done. split_and!; try done.
    unfold entries_of. rewrite Hr.
    destruct (decide (fn ∈ rules R)) as [Hin|Hin].
    + by replace (rules R ∪ {[fn]}) with (rules R) by set_solver.
    + assert (Hp : elements (rules R ∪ {[fn]}) ≡ₚ fn :: elements (rules R)).
      { rewrite (comm_L (∪)). by apply elements_union_singleton. }
      apply Permutation_length. rewrite Hp.
      rewrite filter_cons, decide_False; [done|]. by intros ->.
  - rewrite prepare_action_conditions. by rewrite decide_True.
  - rewrite prepare_action_events. by rewrite decide_True.
  - rewrite Hc. by rewrite decide_True.
  - rewrite He. by rewrite decide_True.
Qed.

(** ** The gate on the results of the conditions *)

Lemma invoke_result (c : Callable) (what : Call) t scope e (w : World) :
  result (invoke c what t scope e w) = (c t scope e w).1.
Proof. unfold invoke. by destruct (c t scope e w). Qed.

Lemma eval_conditions_results t self e r (conditions : list Callable) :
  ∀ i w results,
    result (Context.eval_conditions t self e r i conditions w) = Ok results →
    ∀ j v, results !! j = Some v →
           ∃ c wj, conditions !! j = Some c ∧ (c t self e wj).1 = Ok v.
Proof.
  induction conditions as [|c cs IH]; intros i w results; simpl.
  - intros [= <-] j v. by rewrite lookup_nil.
  - destruct (result (invoke c (CondCall r i self e) t self e w)) as [v0|x] eqn:Hv;
      [rewrite (bind_Ok _ _ _ _ Hv) | by rewrite (bind_Raise _ _ _ _ Hv)].
    outcome.
    destruct (result (Context.eval_conditions t self e r (S i) cs
                        (final (invoke c (CondCall r i self e) t self e w))))
      as [vs|x] eqn:Hvs;
      [rewrite (bind_Ok _ _ _ _ Hvs) | by rewrite (bind_Raise _ _ _ _ Hvs)].
    outcome. intros [= <-] [|j] v; simpl.
    + intros [= <-]. exists c, w. split; [done|]. by rewrite <- (invoke_result c (CondCall r i self e)).
    + intros Hj. by eapply IH.
Qed.

Lemma action_call_iff R t self e r (conditions : list Callable) w results :
  fn_conditions R !! r = Some conditions →
  result (Context.eval_conditions t self e r 0 conditions w) = Ok results →
  ActionCall r self e ∈ calls (Context.handle_candidate R t self e r w)
  ↔ count_False results = 0.
Proof.
  intros Hc Hres. rewrite (handle_candidate_calls _ _ _ _ _ _ _ _ Hc Hres).
  rewrite elem_of_app. destruct (Nat.eqb_spec (count_False results) 0) as [H0|H0].
  - split; [done|]. intros _. right. by left.
  - split; [|done]. intros [Hin|Hin%elem_of_nil]; [|done].
    unfold cond_calls in Hin. apply list_elem_of_fmap in Hin as (j & [=] & _).
Qed.

Lemma cond_calls_elem r n scope e i :
  i < n → CondCall r i scope e ∈ cond_calls r 0 n scope e.
Proof.
  intros Hi. unfold cond_calls. apply list_elem_of_fmap. exists i.
  split; [done|]. apply elem_of_seq. lia.
Qed.

(** C2, as the code has it: when the turn of a candidate comes and no
    condition raises, every condition of the rule is called, once and
    in order, with the namespace of the context and the event, and the
    action is invoked if and only if no condition returned a value that
    compares equal to [False]; for conditions that return booleans, as
    the docstring of [condition] asks, that is if and only if all
    returned [True].  A rule with no condition has its action invoked,
    and one condition that returns [False] keeps it from being
    invoked. *)
Theorem action_runs_iff_no_result_equals_False
    R t self e r (conditions : list Callable) w results :
  fn_conditions R !! r = Some conditions →
  result (Context.eval_conditions t self e r 0 conditions w) = Ok results →
  calls (Context.eval_conditions t self e r 0 conditions w)
    = cond_calls r 0 (length conditions) self e ∧
  (∀ i, i < length conditions →
        CondCall r i self e ∈ calls (Context.handle_candidate R t self e r w)) ∧
  length results = length conditions ∧
  (∀ i v, results !! i = Some v →
          ∃ c wi, conditions !! i = Some c ∧ (c t self e wi).1 = Ok v) ∧
  (ActionCall r self e ∈ calls (Context.handle_candidate R t self e r w)
   ↔ Forall (λ v, py_eq_False v = false) results) ∧
  ((∀ v, v ∈ results → ∃ b, v = PBool b) →
   (ActionCall r self e ∈ calls (Context.handle_candidate R t self e r w)
    ↔ Forall (λ v, v = PBool true) results)) ∧
  (conditions = [] →
   ActionCall r self e ∈ calls (Context.handle_candidate R t self e r w)) ∧
  (PBool false ∈ results →
   ActionCall r self e ∉ calls (Context.handle_candidate R t self e r w)).
Proof.
  intros Hc Hres.
  destruct (eval_conditions_calls _ _ _ _ _ _ _ _ Hres) as [Hcalls Hlen].
  pose proof (action_call_iff _ _ _ _ _ _ _ _ Hc Hres) as Hact.
  rewrite count_False_0 in Hact.
  split_and!; try done.
  - intros i Hi. rewrite (handle_candidate_calls _ _ _ _ _ _ _ _ Hc Hres).
    apply elem_of_app. left. by apply cond_calls_elem.
  - by apply (eval_conditions_results t self e r conditions 0 w).
  - intros Hbool. rewrite Hact, !Forall_forall. split; intros Hall v Hv.
    + destruct (Hbool v Hv) as [[] ->]; [done|]. by specialize (Hall _ Hv).
    + by rewrite (Hall v Hv).
  - intros ->. apply Hact. simpl in Hres. injection Hres as <-. constructor.
  - intros Hin. rewrite Hact, Forall_forall. intros Hall. by specialize (Hall _ Hin).
Qed.

(** ** Context switches *)

Lemma current_context_set t v w :
  current_context t (set_thread_local t (Some v) w) = v.
Proof. unfold current_context, set_thread_local. simpl. by rewrite fn_lookup_insert. Qed.

(** A scope that is left normally restores, for the thread that
    entered it, the context that was current on entry, and does not
    touch the binding of any other thread. *)
Theorem context_switch_normal_exit {A} t context (body : M A) w a :
  result (body (set_thread_local t (Some context) w)) = Ok a →
  result (context_switch t context body w) = Ok a ∧
  current_context t (final (context_switch t context body w)) = current_context t w ∧
  (∀ t', t' ≠ t →
         thread_local (final (context_switch t context body w)) t'
         = thread_local (final (body (set_thread_local t (Some context) w))) t').
Proof.
  intros Hb. unfold context_switch. rewrite Hb. outcome.
  split_and!; [done | apply current_context_set |].
  intros t' Ht'. unfold set_thread_local. simpl. by rewrite fn_lookup_insert_ne.
Qed.

Lemma context_switch_raise {A} t context (body : M A) w x :
  result (body (set_thread_local t (Some context) w)) = Raise x →
  context_switch t context body w = body (set_thread_local t (Some context) w).
Proof. intros Hb. unfold context_switch. by rewrite Hb. Qed.

(** C3, where the code departs from it: thread [0] is bound to context
    [1] and enters a scope on context [2] whose body raises; the
    exception leaves the scope and the thread is still bound to
    context [2].  In [nested_scopes] the event emitted after the inner
    scope, under the outer one, lands in the queue of context [2] and
    not in that of context [1]. *)
Theorem context_switch_raise_keeps_inner_binding :
  current_context 0 Fixtures.world_A = Some 1 ∧
  result (context_switch 0 (Some 2) Fixtures.boom Fixtures.world_A)
    = Raise (Exception PNone) ∧
  current_context 0 (final (context_switch 0 (Some 2) Fixtures.boom Fixtures.world_A))
    = Some 2 ∧
  result (Fixtures.nested_scopes Fixtures.world0) = Ok tt ∧
  event_queue (contexts (final (Fixtures.nested_scopes Fixtures.world0)) 1) = [] ∧
  event_queue (contexts (final (Fixtures.nested_scopes Fixtures.world0)) 2)
    = [Event.mk "ping" ∅].
Proof. split_and!; reflexivity. Qed.

(** ** Emission *)

Lemma receive_event_spec c e w :
  result (Context.receive_event c e w) = Ok tt ∧
  calls (Context.receive_event c e w) = [] ∧
  event_queue (contexts (final (Context.receive_event c e w)) c)
    = event_queue (contexts w c) ++ [e] ∧
  scope (contexts (final (Context.receive_event c e w)) c) = scope (contexts w c) ∧
  done (contexts (final (Context.receive_event c e w)) c) = done (contexts w c) ∧
  trace (contexts (final (Context.receive_event c e w)) c) = trace (contexts w c) ∧
  (∀ c', c' ≠ c → contexts (final (Context.receive_event c e w)) c' = contexts w c') ∧
  thread_local (final (Context.receive_event c e w)) = thread_local w.
Proof.
  unfold Context.receive_event, Context._trace, Context.event_queue_put, bind, modify.
  destruct (trace (contexts w c)) eqn:Htr; simpl; rewrite fn_lookup_insert;
    simpl; split_and!; try done; intros c' Hc'; by rewrite fn_lookup_insert_ne.
Qed.

(** C5 as stated fails for a data argument that is truthy and not a
    mapping: with no context bound the error is the assertion error of
    the event construction, and with a context bound the call raises
    it too and nothing is put in the queue. *)
Lemma new_event_list_data_assertion_error :
  current_context 0 Fixtures.world0 = None ∧
  result (new_event 0 "ping" (PList [PInt 1]) Fixtures.world0) = Raise AssertionError ∧
  current_context 0 Fixtures.world_A = Some 1 ∧
  result (new_event 0 "ping" (PList [PInt 1]) Fixtures.world_A) = Raise AssertionError ∧
  event_queue (contexts (final (new_event 0 "ping" (PList [PInt 1]) Fixtures.world_A)) 1)
    = [].
Proof. split_and!; reflexivity. Qed.

(** ** The properties on concrete programs *)

Lemma first_1_then_2_wf : registry_wf Fixtures.first_1_then_2.
Proof.
  apply (register_wf 2 (AttachEvent "tick")), (register_wf 1 (AttachEvent "tick")).
  apply initial_registry_wf.
Defined.

(** C2 as stated fails: the one condition of the rule returns [None],
    which is not [True], and the action is invoked. *)
Lemma condition_returning_None_lets_action_run :
  fn_conditions (Fixtures.rule_with_condition PNone) !! 1%positive
    = Some [Fixtures.returns PNone] ∧
  result (Context.eval_conditions 0 0 Fixtures.tick 1 0 [Fixtures.returns PNone]
            Fixtures.world_tick) = Ok [PNone] ∧
  py_truthy PNone = false ∧
  calls (Context._handle_one (Fixtures.rule_with_condition PNone) 0 0 Fixtures.world_tick)
    = [CondCall 1 0 0 Fixtures.tick; ActionCall 1 0 Fixtures.tick].
Proof. split_and!; reflexivity. Qed.

(** [action_runs_iff_no_result_equals_False] on a rule whose one
    condition returns [True]. *)
Lemma action_runs_iff_no_result_equals_False_witness :
  fn_conditions (Fixtures.rule_with_condition (PBool true)) !! 1%positive
    = Some [Fixtures.returns (PBool true)] ∧
  result (Context.eval_conditions 0 0 Fixtures.tick 1 0 [Fixtures.returns (PBool true)]
            Fixtures.world_tick) = Ok [PBool true] ∧
  (ActionCall 1 0 Fixtures.tick
     ∈ calls (Context.handle_candidate (Fixtures.rule_with_condition (PBool true)) 0 0
                Fixtures.tick 1 Fixtures.world_tick)
   ↔ Forall (λ v, py_eq_False v = false) [PBool true]).
Proof.
  split; [reflexivity|]. split; [reflexivity|].
  apply (action_runs_iff_no_result_equals_False
           (Fixtures.rule_with_condition (PBool true)) 0 0 Fixtures.tick 1
           [Fixtures.returns (PBool true)] Fixtures.world_tick [PBool true]);
    reflexivity.
Defined.

(** [Event_init_data_must_be_mapping] on a list and on a non-empty
    string. *)
Lemma Event_init_data_must_be_mapping_witness :
  Event.__init__ "tick" (PList [PInt 1]) = Raise AssertionError ∧
  Event.__init__ "tick" (PStr "abc") = Raise AssertionError.
Proof.
  split.
  - apply (Event_init_data_must_be_mapping "tick" (PList [PInt 1])); reflexivity.
  - apply (Event_init_data_must_be_mapping "tick" (PStr "abc")); reflexivity.
Defined.

(** [registration_keeps_one_entry] for a condition and two event
    names attached to function [1] while function [2] is registered. *)
Lemma registration_keeps_one_entry_witness :
  entries_of 1
    (register_all 1 [AttachEvent "tick"; AttachCondition (Fixtures.returns PNone);
                     AttachEvent "tock"]
       (event "tick" 2 (initial_registry Fixtures.code))) = 1 ∧
  entries_of 2
    (register_all 1 [AttachEvent "tick"; AttachCondition (Fixtures.returns PNone);
                     AttachEvent "tock"]
       (event "tick" 2 (initial_registry Fixtures.code))) = 1.
Proof.
  destruct (registration_keeps_one_entry 1 (AttachEvent "tick")
              [AttachCondition (Fixtures.returns PNone); AttachEvent "tock"]
              (event "tick" 2 (initial_registry Fixtures.code)))
    as (H1 & _ & Hother & _).
  split; [exact H1|].
  destruct (Hother 2%positive) as (-> & _); [discriminate | reflexivity].
Defined.

(** [context_switch_normal_exit] on a scope on context [2] entered
    under context [1], whose body emits an event. *)
Lemma context_switch_normal_exit_witness :
  result (new_event 0 "ping" PNone (set_thread_local 0 (Some (Some 2)) Fixtures.world_A))
    = Ok tt ∧
  current_context 0
    (final (context_switch 0 (Some 2) (new_event 0 "ping" PNone) Fixtures.world_A))
    = current_context 0 Fixtures.world_A.
Proof.
  split; [reflexivity|].
  apply (context_switch_normal_exit 0 (Some 2) (new_event 0 "ping" PNone)
           Fixtures.world_A tt).
  reflexivity.
Defined.

(** * Further properties of the module *)

(** ** Events *)

Lemma py_or_mapping (d : gmap string pyval) : py_or (PDict d) (PDict ∅) = PDict d.
Proof.
  unfold py_or. simpl. case_bool_decide as Hd; simpl; [by rewrite Hd | done].
Qed.

(** A data argument that is falsy, mapping or not ([None], [False],
    [0], the empty string, the empty list), is dropped: the event is
    constructed, with the empty mapping. *)
Theorem Event_init_falsy_data_dropped (name : string) (data : pyval) :
  py_truthy data = false → Event.__init__ name data = Ok (Event.mk name ∅).
Proof.
  intros Hf. apply Event_init_Ok. split; [done|]. unfold py_or. by rewrite Hf.
Qed.

Lemma Event_init_falsy_data_dropped_witness :
  py_truthy (PInt 0) = false ∧
  Event.__init__ "tick" (PInt 0) = Ok (Event.mk "tick" ∅) ∧
  Event.__init__ "tick" (PList []) = Ok (Event.mk "tick" ∅).
Proof.
  split; [reflexivity|]. split.
  - apply (Event_init_falsy_data_dropped "tick" (PInt 0)). reflexivity.
  - apply (Event_init_falsy_data_dropped "tick" (PList [])). reflexivity.
Defined.

(** What a thread emits with a mapping, under a context, is what the
    context later reads: the event at the tail of the queue has the
    name given, and its attributes are the entries of the mapping. *)
Theorem emitted_event_carries_name_and_data t eventname (d : gmap string pyval) w c :
  current_context t w = Some c →
  ∃ e, event_queue (contexts (final (new_event t eventname (PDict d) w)) c)
         = event_queue (contexts w c) ++ [e] ∧
       Event.name e = eventname ∧
       (∀ k v, d !! k = Some v → Event.__getattr__ e k = Ok v) ∧
       (∀ k, d !! k = None → Event.__getattr__ e k = Raise (KeyError k)).
Proof.
  intros Hc. exists (Event.mk eventname d).
  assert (He : result (lift (Event.__init__ eventname (PDict d)) w)
               = Ok (Event.mk eventname d)).
  { simpl. apply Event_init_Ok. split; [done|]. apply py_or_mapping. }
  unfold new_event. rewrite (bind_Ok _ _ _ _ He). outcome. simpl. rewrite Hc.
  destruct (receive_event_spec c (Event.mk eventname d) w) as (_ & _ & Hq & _).
  split_and!; [done | done | |].
  - intros k v Hk. unfold Event.__getattr__. simpl. by rewrite Hk.
  - intros k Hk. unfold Event.__getattr__. simpl. by rewrite Hk.
Qed.

Lemma emitted_event_carries_name_and_data_witness :
  current_context 0 Fixtures.world_A = Some 1 ∧
  ∃ e, event_queue (contexts (final (new_event 0 "login"
                                       (PDict {[ "user" := PStr "admin" ]})
                                       Fixtures.world_A)) 1)
         = event_queue (contexts Fixtures.world_A 1) ++ [e] ∧
       Event.name e = "login" ∧
       Event.__getattr__ e "user" = Ok (PStr "admin").
Proof.
  split; [reflexivity|].
  destruct (emitted_event_carries_name_and_data 0 "login"
              {[ "user" := PStr "admin" ]} Fixtures.world_A 1)
    as (e & Hq & Hn & Hpresent & _); [reflexivity|].
  exists e. split_and!; [exact Hq | exact Hn |].
  apply Hpresent. reflexivity.
Defined.

(** ** Registration, continued *)

Lemma prepare_action_rules fn R : rules (prepare_action fn R) = rules R ∪ {[fn]}.
Proof. reflexivity. Qed.

Lemma event_register n fn R : event n fn R = register fn (AttachEvent n) R.
Proof. reflexivity. Qed.

Lemma condition_register c fn R : condition c fn R = register fn (AttachCondition c) R.
Proof. reflexivity. Qed.

Lemma event_events n fn R k :
  fn_events (event n fn R) !! k
    = if decide (k = fn) then Some (default ∅ (fn_events R !! fn) ∪ {[n]})
      else fn_events R !! k.
Proof.
  rewrite event_register, register_events. case_decide; [|done].
  f_equal. unfold attached_events. simpl. set_solver.
Qed.

Lemma condition_conditions c fn R k :
  fn_conditions (condition c fn R) !! k
    = if decide (k = fn) then Some (default [] (fn_conditions R !! fn) ++ [c])
      else fn_conditions R !! k.
Proof. by rewrite condition_register, register_conditions. Qed.

(** Preparing an action twice is preparing it once, and attaching an
    event name twice is attaching it once. *)
Theorem prepare_action_and_event_idempotent fn n R :
  prepare_action fn (prepare_action fn R) = prepare_action fn R ∧
  event n fn (event n fn R) = event n fn R.
Proof.
  split; apply Registry_eq.
  - rewrite !prepare_action_rules. set_solver.
  - done.
  - intros k. rewrite !prepare_action_conditions. case_decide; [|done].
    by rewrite decide_True.
  - intros k. rewrite !prepare_action_events. case_decide; [|done].
    by rewrite decide_True.
  - rewrite !event_register, !register_rules. set_solver.
  - done.
  - intros k. rewrite !event_register, !register_conditions.
    case_decide; [|done]. rewrite decide_True by done. simpl.
    by rewrite !app_nil_r.
  - intros k. rewrite !event_events. case_decide; [|done].
    rewrite decide_True by done. simpl. f_equal. set_solver.
Qed.

(** On one action, a condition and an event name can be attached in
    either order, and so can two event names: the registry is the
    same. *)
Theorem condition_and_event_commute c n m fn R :
  condition c fn (event n fn R) = event n fn (condition c fn R) ∧
  event n fn (event m fn R) = event m fn (event n fn R).
Proof.
  split; apply Registry_eq.
  - rewrite !condition_register, !event_register, !register_rules. set_solver.
  - done.
  - intros k. rewrite !condition_register, !event_register, !register_conditions.
    case_decide; [|done]. rewrite !decide_True by done. simpl.
    by rewrite !app_nil_r.
  - intros k. rewrite !condition_register, !event_register, !register_events.
    case_decide; [|done]. rewrite !decide_True by done. simpl. f_equal.
    unfold attached_events. simpl. set_solver.
  - rewrite !event_register, !register_rules. set_solver.
  - done.
  - intros k. rewrite !event_register, !register_conditions.
    case_decide; [|done]. by rewrite !decide_True by done.
  - intros k. rewrite !event_events. case_decide; [|done].
    rewrite !decide_True by done. simpl. f_equal. set_solver.
Qed.

Lemma register_seq_wf (cs : list (fn_id * RegCall)) :
  ∀ R, registry_wf R → registry_wf (register_seq cs R).
Proof.
  induction cs as [|[fn call] cs IH]; intros R Hwf; [done|].
  apply IH. by apply register_wf.
Qed.

(** Whatever registration calls are made after the import of the
    module, on whatever functions, every function of [rules] has its
    two attributes, and the selection of the candidates for an event
    raises no error. *)
Theorem registered_rules_have_attributes code (cs : list (fn_id * RegCall)) :
  registry_wf (register_seq cs (initial_registry code)) ∧
  ∀ e, ∃ candidates,
    Context.candidates (register_seq cs (initial_registry code)) e = Ok candidates.
Proof.
  assert (Hwf : registry_wf (register_seq cs (initial_registry code))).
  { apply register_seq_wf, initial_registry_wf. }
  split; [done|]. intros e.
  destruct (select_candidates_Ok (register_seq cs (initial_registry code)) e
              (elements (rules (register_seq cs (initial_registry code)))))
    as (candidates & Hc & _).
  - intros r Hr%elem_of_elements. by apply Hwf.
  - by exists candidates.
Qed.

(** An action with several event names is a candidate for the events
    of each of these names: after [a] and [b] are attached to [fn],
    [fn] is a candidate for [e] exactly when the name of [e] is [a],
    [b] or a name that [fn] had before. *)
Theorem several_event_names_all_match a b fn R e :
  registry_wf R →
  ∃ candidates,
    Context.candidates (event b fn (event a fn R)) e = Ok candidates ∧
    (fn ∈ candidates ↔
     Event.name e = a ∨ Event.name e = b ∨
     Event.name e ∈ default ∅ (fn_events R !! fn)).
Proof.
  intros Hwf.
  assert (Hwf' : registry_wf (event b fn (event a fn R))).
  { rewrite !event_register. by do 2 apply register_wf. }
  destruct (select_candidates_Ok (event b fn (event a fn R)) e
              (elements (rules (event b fn (event a fn R)))))
    as (candidates & Hc & Hiff).
  { intros r Hr%elem_of_elements. by apply Hwf'. }
  exists candidates. split; [done|]. rewrite Hiff, elem_of_elements.
  rewrite !event_events, !decide_True by done. simpl.
  split.
  - intros (_ & evs & [= <-] & Hin). set_solver.
  - intros Hin. split; [set_solver|]. eexists. split; [done|]. set_solver.
Qed.

Lemma several_event_names_all_match_witness :
  registry_wf (initial_registry Fixtures.code) ∧
  ∃ candidates,
    Context.candidates
      (event "tock" 1 (event "tick" 1 (initial_registry Fixtures.code)))
      Fixtures.tick = Ok candidates ∧
    1%positive ∈ candidates.
Proof.
  split; [apply initial_registry_wf|].
  destruct (several_event_names_all_match "tick" "tock" 1
              (initial_registry Fixtures.code) Fixtures.tick)
    as (candidates & Hc & Hiff); [apply initial_registry_wf|].
  exists candidates. split; [exact Hc|]. apply Hiff. by left.
Defined.

(** ** One turn of the event loop, continued *)

Lemma except_QueueEmpty_pass_eta (m m' : M unit) (w w' : World) :
  m w = mkOutcome (result (m' w')) (final (m' w')) (calls (m' w')) →
  except_QueueEmpty_pass m w = except_QueueEmpty_pass m' w'.
Proof.
  intros H. unfold except_QueueEmpty_pass. rewrite H. outcome.
  by destruct (m' w') as [[|[]] ? ?].
Qed.

(** The turn takes the head [e] of the queue and runs the selection and
    the loop over the candidates in the world [w1] that has the rest of
    the queue. *)
Lemma handle_one_dequeue R t self w e q :
  event_queue (contexts w self) = e :: q →
  ∃ w1,
    event_queue (contexts w1 self) = q ∧
    scope (contexts w1 self) = scope (contexts w self) ∧
    done (contexts w1 self) = done (contexts w self) ∧
    (∀ c, c ≠ self → contexts w1 c = contexts w c) ∧
    thread_local w1 = thread_local w ∧
    Context._handle_one R t self w
      = except_QueueEmpty_pass
          (cs <- lift (Context.candidates R e) ;;
           for_each (Context.handle_candidate R t self e) cs) w1.
Proof.
  intros Hq.
  set (w0 := set_context self
               (mkContext q (scope (contexts w self)) (done (contexts w self))
                  (trace (contexts w self))) w).
  assert (Hget : Context.event_queue_get self w = mkOutcome (Ok e) w0 []).
  { unfold Context.event_queue_get. by rewrite Hq. }
  exists (final (Context._trace self (WorkingOnEvent e) w0)).
  assert (Htr : trace (contexts w0 self) = trace (contexts w self)).
  { unfold w0, set_context. simpl. by rewrite fn_lookup_insert. }
  split_and!.
  - unfold Context._trace. rewrite Htr.
    destruct (trace (contexts w self)); simpl; by rewrite fn_lookup_insert.
  - unfold Context._trace. rewrite Htr.
    destruct (trace (contexts w self)); simpl; by rewrite fn_lookup_insert.
  - unfold Context._trace. rewrite Htr.
    destruct (trace (contexts w self)); simpl; by rewrite fn_lookup_insert.
  - intros c Hc. unfold Context._trace. rewrite Htr.
    destruct (trace (contexts w self)); simpl; by rewrite fn_lookup_insert_ne.
  - unfold Context._trace. rewrite Htr. by destruct (trace (contexts w self)).
  - unfold Context._handle_one. apply except_QueueEmpty_pass_eta.
    assert (Hget' : result (Context.event_queue_get self w) = Ok e) by (by rewrite Hget).
    rewrite (bind_Ok _ _ _ _ Hget'). rewrite Hget. outcome.
    destruct (trace_calls self (WorkingOnEvent e) w0) as [Hc Hr].
    rewrite (bind_Ok _ _ _ _ Hr). outcome. by rewrite Hc.
Qed.

(** An event that no rule is registered for is taken from the queue
    and dropped: the turn returns normally, calls nothing, and leaves
    the rest of the queue, the namespace and the flag of the context,
    the other contexts and the bindings as they were. *)
Theorem unmatched_event_is_consumed R t self w e q :
  event_queue (contexts w self) = e :: q →
  Context.candidates R e = Ok [] →
  result (Context._handle_one R t self w) = Ok tt ∧
  calls (Context._handle_one R t self w) = [] ∧
  event_queue (contexts (final (Context._handle_one R t self w)) self) = q ∧
  scope (contexts (final (Context._handle_one R t self w)) self) = scope (contexts w self) ∧
  done (contexts (final (Context._handle_one R t self w)) self) = done (contexts w self) ∧
  (∀ c, c ≠ self → contexts (final (Context._handle_one R t self w)) c = contexts w c) ∧
  thread_local (final (Context._handle_one R t self w)) = thread_local w.
Proof.
  intros Hq Hcs.
  destruct (handle_one_dequeue R t self w e q Hq) as (w1 & ? & ? & ? & ? & ? & ->).
  unfold except_QueueEmpty_pass, bind, lift. rewrite Hcs. by outcome.
Qed.

Lemma unmatched_event_is_consumed_witness :
  event_queue (contexts Fixtures.world_tick 0) = [Fixtures.tick] ∧
  Context.candidates (initial_registry Fixtures.code) Fixtures.tick = Ok [] ∧
  result (Context._handle_one (initial_registry Fixtures.code) 0 0 Fixtures.world_tick)
    = Ok tt ∧
  event_queue (contexts (final (Context._handle_one (initial_registry Fixtures.code) 0 0
                                  Fixtures.world_tick)) 0) = [].
Proof.
  split; [reflexivity|]. split; [reflexivity|].
  destruct (unmatched_event_is_consumed (initial_registry Fixtures.code) 0 0
              Fixtures.world_tick Fixtures.tick [])
    as (Hr & _ & Hq & _); [reflexivity | reflexivity |].
  split; [exact Hr | exact Hq].
Defined.

Lemma select_candidates_missing_events R e (rs : list fn_id) r :
  r ∈ rs → fn_events R !! r = None →
  Context.select_candidates R e rs = Raise (AttributeError "events").
Proof.
  intros Hin Hnone. induction rs as [|r' rs IH]; [by apply elem_of_nil in Hin|].
  simpl. destruct (fn_events R !! r') as [evs|] eqn:Hevs; [|done].
  apply elem_of_cons in Hin as [->|Hin]; [congruence|].
  by rewrite IH.
Qed.

(** A function that is in [rules] without the attribute [events] (put
    there otherwise than by the decorators) makes every turn that has
    an event to dispatch fail with the attribute error: the event has
    been taken from the queue, and no condition or action is called. *)
Theorem unprepared_rule_breaks_dispatch R t self w e q r :
  r ∈ rules R → fn_events R !! r = None →
  event_queue (contexts w self) = e :: q →
  result (Context._handle_one R t self w) = Raise (AttributeError "events") ∧
  calls (Context._handle_one R t self w) = [] ∧
  event_queue (contexts (final (Context._handle_one R t self w)) self) = q.
Proof.
  intros Hr Hnone Hq.
  destruct (handle_one_dequeue R t self w e q Hq) as (w1 & ? & _ & _ & _ & _ & ->).
  assert (Hcs : Context.candidates R e = Raise (AttributeError "events")).
  { apply (select_candidates_missing_events R e _ r); [|done]. by apply elem_of_elements. }
  unfold except_QueueEmpty_pass, bind, lift. rewrite Hcs. by outcome.
Qed.

Lemma unprepared_rule_breaks_dispatch_witness :
  1%positive ∈ rules Fixtures.unprepared_rule ∧
  fn_events Fixtures.unprepared_rule !! 1%positive = None ∧
  event_queue (contexts Fixtures.world_tick 0) = [Fixtures.tick] ∧
  result (Context._handle_one Fixtures.unprepared_rule 0 0 Fixtures.world_tick)
    = Raise (AttributeError "events").
Proof.
  assert (Hin : 1%positive ∈ rules Fixtures.unprepared_rule).
  { unfold Fixtures.unprepared_rule. cbn [rules]. by apply elem_of_singleton_2. }
  split; [exact Hin|]. split; [reflexivity|]. split; [reflexivity|].
  destruct (unprepared_rule_breaks_dispatch Fixtures.unprepared_rule 0 0
              Fixtures.world_tick Fixtures.tick [] 1%positive)
    as (Hr & _); [exact Hin | reflexivity | reflexivity |].
  exact Hr.
Defined.

(** The queue is first in, first out across [receive_event] and the
    turn that follows: whatever the turn calls, it calls for the oldest
    event of the queue, which is the event just received only when the
    queue was empty. *)
Theorem oldest_event_is_dispatched_first R t c w e e0 q :
  event_queue (contexts w c) ++ [e] = e0 :: q →
  ∀ call,
    call ∈ calls (Context._handle_one R t c (final (Context.receive_event c e w))) →
    call_event call = e0 ∧ call_scope call = c.
Proof.
  intros Hq call Hcall.
  destruct (receive_event_spec c e w) as (_ & _ & Hq' & _). rewrite Hq in Hq'.
  destruct (handle_one_calls_cases R t c (final (Context.receive_event c e w)))
    as [Hnil|(e' & q' & cs & w1 & Hq'' & _ & Hcalls)].
  - rewrite Hnil in Hcall. by apply elem_of_nil in Hcall.
  - rewrite Hcalls in Hcall. apply for_each_calls_elem in Hcall as (_ & ? & ?).
    split; [|done]. congruence.
Qed.

Lemma oldest_event_is_dispatched_first_witness :
  event_queue (contexts Fixtures.world_tick 0) ++ [Event.mk "tock" ∅]
    = Fixtures.tick :: [Event.mk "tock" ∅] ∧
  ∀ call,
    call ∈ calls (Context._handle_one Fixtures.first_1_then_2 0 0
                    (final (Context.receive_event 0 (Event.mk "tock" ∅)
                              Fixtures.world_tick))) →
    call_event call = Fixtures.tick ∧ call_scope call = 0.
Proof.
  split; [reflexivity|].
  apply (oldest_event_is_dispatched_first Fixtures.first_1_then_2 0 0
           Fixtures.world_tick (Event.mk "tock" ∅) Fixtures.tick [Event.mk "tock" ∅]).
  reflexivity.
Defined.

(** ** Exceptions raised by conditions and actions *)






(** ** Emission inside scopes *)

Lemma new_event_bound t eventname data d w c :
  py_or data (PDict ∅) = PDict d →
  current_context t w = Some c →
  new_event t eventname data w = Context.receive_event c (Event.mk eventname d) w.
Proof.
  intros Hd Hc.
  assert (He : result (lift (Event.__init__ eventname data) w) = Ok (Event.mk eventname d)).
  { simpl. by apply Event_init_Ok. }
  unfold new_event. rewrite (bind_Ok _ _ _ _ He). outcome. cbn [lift final calls].
  rewrite Hc. by destruct (Context.receive_event c (Event.mk eventname d) w).
Qed.

Lemma new_event_unbound t eventname data d w :
  py_or data (PDict ∅) = PDict d →
  current_context t w = None →
  new_event t eventname data w
    = mkOutcome (Raise (NotImplementedError no_current_context)) w [].
Proof.
  intros Hd Hc.
  assert (He : result (lift (Event.__init__ eventname data) w) = Ok (Event.mk eventname d)).
  { simpl. by apply Event_init_Ok. }
  unfold new_event. rewrite (bind_Ok _ _ _ _ He). outcome. cbn [lift final calls].
  by rewrite Hc.
Qed.

Lemma current_context_contexts t v w : contexts (set_thread_local t v w) = contexts w.
Proof. reflexivity. Qed.

Lemma context_switch_Ok {A} t context (body : M A) w a :
  result (body (set_thread_local t (Some context) w)) = Ok a →
  context_switch t context body w
    = mkOutcome (Ok a)
        (set_thread_local t (Some (current_context t w))
           (final (body (set_thread_local t (Some context) w))))
        (calls (body (set_thread_local t (Some context) w))).
Proof. unfold context_switch. by intros ->. Qed.

(** [with context_switch(c): new_event(eventname, data)] by thread [t],
    for a data argument that is falsy or a mapping. *)
Lemma context_switch_new_event t c eventname data d w :
  py_or data (PDict ∅) = PDict d →
  result (context_switch t (Some c) (new_event t eventname data) w) = Ok tt ∧
  calls (context_switch t (Some c) (new_event t eventname data) w) = [] ∧
  event_queue (contexts (final (context_switch t (Some c) (new_event t eventname data) w)) c)
    = event_queue (contexts w c) ++ [Event.mk eventname d] ∧
  (∀ c', c' ≠ c →
         contexts (final (context_switch t (Some c) (new_event t eventname data) w)) c'
         = contexts w c') ∧
  current_context t (final (context_switch t (Some c) (new_event t eventname data) w))
    = current_context t w ∧
  (∀ t', t' ≠ t →
         thread_local (final (context_switch t (Some c) (new_event t eventname data) w)) t'
         = thread_local w t').
Proof.
  intros Hd. unfold context_switch.
  rewrite (new_event_bound t eventname data d _ c Hd (current_context_set t (Some c) w)).
  destruct (receive_event_spec c (Event.mk eventname d)
              (set_thread_local t (Some (Some c)) w))
    as (Hr & Hcalls & Hq & _ & _ & _ & Hother & Htl).
  rewrite Hr. outcome. split_and!; try done.
  - apply current_context_set.
  - intros t' Ht'. unfold set_thread_local at 1. cbn [thread_local].
    rewrite fn_lookup_insert_ne, Htl by done.
    unfold set_thread_local. cbn [thread_local]. by rewrite fn_lookup_insert_ne.
Qed.

(** Emission is valid inside a scope and only there: a thread that has
    no context cannot emit, can emit inside [with context_switch(c)],
    the event going to the queue of [c] and to no other, and cannot
    emit any more once the scope is left. *)
Theorem emission_needs_a_scope t c eventname data d w :
  py_or data (PDict ∅) = PDict d →
  current_context t w = None →
  result (new_event t eventname data w) = Raise (NotImplementedError no_current_context) ∧
  result (context_switch t (Some c) (new_event t eventname data) w) = Ok tt ∧
  event_queue (contexts (final (context_switch t (Some c) (new_event t eventname data) w)) c)
    = event_queue (contexts w c) ++ [Event.mk eventname d] ∧
  (∀ c', c' ≠ c →
         contexts (final (context_switch t (Some c) (new_event t eventname data) w)) c'
         = contexts w c') ∧
  result (new_event t eventname data
            (final (context_switch t (Some c) (new_event t eventname data) w)))
    = Raise (NotImplementedError no_current_context).
Proof.
  intros Hd Hc.
  destruct (context_switch_new_event t c eventname data d w Hd)
    as (Hr & _ & Hq & Hother & Hcur & _).
  split_and!; try done.
  - by rewrite (new_event_unbound t eventname data d w Hd Hc).
  - rewrite (new_event_unbound t eventname data d _ Hd); [done|]. by rewrite Hcur.
Qed.

Lemma emission_needs_a_scope_witness :
  py_or PNone (PDict ∅) = PDict ∅ ∧
  current_context 0 Fixtures.world0 = None ∧
  result (new_event 0 "ping" PNone Fixtures.world0)
    = Raise (NotImplementedError no_current_context) ∧
  result (context_switch 0 (Some 1) (new_event 0 "ping" PNone) Fixtures.world0) = Ok tt.
Proof.
  split; [reflexivity|]. split; [reflexivity|].
  destruct (emission_needs_a_scope 0 1 "ping" PNone ∅ Fixtures.world0)
    as (H1 & H2 & _); [reflexivity | reflexivity |].
  split; [exact H1 | exact H2].
Defined.

(** Scopes nest when they are left normally: an event emitted inside
    the inner scope goes to the context of the inner scope, an event
    emitted after it, still inside the outer scope, goes to the context
    of the outer scope, and after both the thread has the context it
    had before. *)
Theorem nested_scopes_route_events t a b n1 n2 w :
  a ≠ b →
  result (context_switch t (Some a)
            (context_switch t (Some b) (new_event t n1 PNone) ;;
             new_event t n2 PNone) w) = Ok tt ∧
  event_queue (contexts (final (context_switch t (Some a)
                                  (context_switch t (Some b) (new_event t n1 PNone) ;;
                                   new_event t n2 PNone) w)) b)
    = event_queue (contexts w b) ++ [Event.mk n1 ∅] ∧
  event_queue (contexts (final (context_switch t (Some a)
                                  (context_switch t (Some b) (new_event t n1 PNone) ;;
                                   new_event t n2 PNone) w)) a)
    = event_queue (contexts w a) ++ [Event.mk n2 ∅] ∧
  current_context t (final (context_switch t (Some a)
                              (context_switch t (Some b) (new_event t n1 PNone) ;;
                               new_event t n2 PNone) w))
    = current_context t w.
Proof.
  intros Hab.
  set (w1 := set_thread_local t (Some (Some a)) w).
  destruct (context_switch_new_event t b n1 PNone ∅ w1 eq_refl)
    as (Hr1 & _ & Hq1 & Hother1 & Hcur1 & _).
  set (o1 := context_switch t (Some b) (new_event t n1 PNone) w1) in *.
  assert (Hcur : current_context t (final o1) = Some a).
  { rewrite Hcur1. apply current_context_set. }
  pose proof (new_event_bound t n2 PNone ∅ (final o1) a eq_refl Hcur) as Hne.
  destruct (receive_event_spec a (Event.mk n2 ∅) (final o1))
    as (Hr2 & _ & Hq2 & _ & _ & _ & Hother2 & _).
  assert (Hbody : (context_switch t (Some b) (new_event t n1 PNone) ;;
                   new_event t n2 PNone) w1
                  = mkOutcome (result (new_event t n2 PNone (final o1)))
                      (final (new_event t n2 PNone (final o1)))
                      (calls o1 ++ calls (new_event t n2 PNone (final o1)))).
  { by rewrite (bind_Ok _ _ _ _ Hr1). }
  assert (Hok : result ((context_switch t (Some b) (new_event t n1 PNone) ;;
                         new_event t n2 PNone) w1) = Ok tt).
  { rewrite Hbody. outcome. by rewrite Hne. }
  rewrite (context_switch_Ok t (Some a) _ w tt Hok). fold w1. rewrite Hbody. outcome.
  rewrite Hne.
  split_and!.
  - done.
  - rewrite current_context_contexts, Hother2 by done. by rewrite Hq1.
  - rewrite current_context_contexts, Hq2, Hother1 by done. done.
  - apply current_context_set.
Qed.

Lemma nested_scopes_route_events_witness :
  1 ≠ 2 ∧
  event_queue (contexts (final (context_switch 0 (Some 1)
                                  (context_switch 0 (Some 2) (new_event 0 "in" PNone) ;;
                                   new_event 0 "out" PNone) Fixtures.world0)) 2)
    = event_queue (contexts Fixtures.world0 2) ++ [Event.mk "in" ∅] ∧
  event_queue (contexts (final (context_switch 0 (Some 1)
                                  (context_switch 0 (Some 2) (new_event 0 "in" PNone) ;;
                                   new_event 0 "out" PNone) Fixtures.world0)) 1)
    = event_queue (contexts Fixtures.world0 1) ++ [Event.mk "out" ∅].
Proof.
  split; [discriminate|].
  destruct (nested_scopes_route_events 0 1 2 "in" "out" Fixtures.world0)
    as (_ & Hb & Ha & _); [discriminate|].
  split; [exact Hb | exact Ha].
Defined.

(** ** The event loop *)

Lemma run_loop_unfold n R t self w :
  Context.run_loop n R t self w
    = if done (contexts w self) then ret true w
      else match n with
           | 0 => ret false w
           | S n' => (Context._handle_one R t self ;; Context.run_loop n' R t self) w
           end.
Proof. by destruct n. Qed.

Lemma run_loop_ended n R t self :
  ∀ w, result (Context.run_loop n R t self w) = Ok true →
       done (contexts (final (Context.run_loop n R t self w)) self) = true.
Proof.
  induction n as [|n IH]; intros w; rewrite run_loop_unfold;
    destruct (done (contexts w self)) eqn:Hd; try done.
  destruct (result (Context._handle_one R t self w)) as [[]|x] eqn:Hh.
  - rewrite (bind_Ok _ _ _ _ Hh). outcome. apply IH.
  - by rewrite (bind_Raise _ _ _ _ Hh).
Qed.

Lemma run_loop_idle n R t self :
  ∀ w, done (contexts w self) = false → event_queue (contexts w self) = [] →
       Context.run_loop n R t self w = mkOutcome (Ok false) w [].
Proof.
  induction n as [|n IH]; intros w Hd Hq; rewrite run_loop_unfold, Hd; [done|].
  unfold bind. rewrite (handle_one_empty_queue R t self w Hq). outcome.
  by rewrite (IH w Hd Hq).
Qed.

(** [run] returns normally only when the [done] flag of the context
    is set, and the thread then has the context it had before the
    call. *)
Theorem run_returns_when_done n R t self w o :
  Context.run n R t self w = Some o →
  result o = Ok tt →
  done (contexts (final o) self) = true ∧
  current_context t (final o) = current_context t w.
Proof.
  unfold Context.run. intros Hrun Hok.
  destruct (result (Context.run_loop n R t self (set_thread_local t (Some (Some self)) w)))
    as [b|x] eqn:Hloop.
  - rewrite (context_switch_Ok t (Some self) _ w b Hloop) in Hrun. outcome.
    destruct b; [|done]. injection Hrun as <-. outcome. split.
    + rewrite current_context_contexts. by apply run_loop_ended.
    + apply current_context_set.
  - rewrite (context_switch_raise t (Some self) _ w x Hloop), Hloop in Hrun.
    injection Hrun as <-. done.
Qed.

Lemma run_returns_when_done_witness :
  Context.run 1 (Fixtures.rule_with_action Fixtures.stop) 0 0 Fixtures.world_tick
    = Some (mkOutcome (Ok tt)
              (final (context_switch 0 (Some 0)
                        (Context.run_loop 1 (Fixtures.rule_with_action Fixtures.stop) 0 0)
                        Fixtures.world_tick))
              [ActionCall 1 0 Fixtures.tick]) ∧
  done (contexts (final (context_switch 0 (Some 0)
                           (Context.run_loop 1 (Fixtures.rule_with_action Fixtures.stop) 0 0)
                           Fixtures.world_tick)) 0) = true.
Proof.
  split; [reflexivity|].
  apply (run_returns_when_done 1 (Fixtures.rule_with_action Fixtures.stop) 0 0
           Fixtures.world_tick
           (mkOutcome (Ok tt)
              (final (context_switch 0 (Some 0)
                        (Context.run_loop 1 (Fixtures.rule_with_action Fixtures.stop) 0 0)
                        Fixtures.world_tick))
              [ActionCall 1 0 Fixtures.tick])); reflexivity.
Defined.

(** On a context whose [done] flag is set, [run] returns at once,
    however many events are in the queue: nothing is dispatched, no
    context changes, and the thread has the context it had before. *)
Theorem run_on_done_context_dispatches_nothing n R t self w :
  done (contexts w self) = true →
  ∃ o, Context.run n R t self w = Some o ∧
       result o = Ok tt ∧ calls o = [] ∧
       contexts (final o) = contexts w ∧
       stderr (final o) = stderr w ∧
       current_context t (final o) = current_context t w.
Proof.
  intros Hd. unfold Context.run.
  assert (Hloop : Context.run_loop n R t self (set_thread_local t (Some (Some self)) w)
                  = ret true (set_thread_local t (Some (Some self)) w)).
  { rewrite run_loop_unfold, current_context_contexts. by rewrite Hd. }
  assert (Hres : result (Context.run_loop n R t self
                           (set_thread_local t (Some (Some self)) w)) = Ok true).
  { by rewrite Hloop. }
  rewrite (context_switch_Ok t (Some self) _ w true Hres). outcome.
  eexists. split; [done|]. outcome. rewrite Hloop. outcome.
  split_and!; try done. apply current_context_set.
Qed.

Lemma run_on_done_context_dispatches_nothing_witness :
  done (contexts Fixtures.world_stopped 0) = true ∧
  event_queue (contexts Fixtures.world_stopped 0) = [Fixtures.tick] ∧
  ∃ o, Context.run 3 Fixtures.first_1_then_2 0 0 Fixtures.world_stopped = Some o ∧
       result o = Ok tt ∧ calls o = [] ∧
       contexts (final o) = contexts Fixtures.world_stopped ∧
       stderr (final o) = stderr Fixtures.world_stopped ∧
       current_context 0 (final o) = current_context 0 Fixtures.world_stopped.
Proof.
  split; [reflexivity|]. split; [reflexivity|].
  apply (run_on_done_context_dispatches_nothing 3 Fixtures.first_1_then_2 0 0
           Fixtures.world_stopped).
  reflexivity.
Defined.

(** An empty queue does not end the loop: while the [done] flag is not
    set and no event arrives, [run] has not returned after any number
    of turns, each turn being a time-out that changes nothing. *)
Theorem run_waits_on_empty_queue n R t self w :
  done (contexts w self) = false →
  event_queue (contexts w self) = [] →
  Context.run n R t self w = None ∧
  Context._handle_one R t self w = mkOutcome (Ok tt) w [].
Proof.
  intros Hd Hq. split; [|by apply handle_one_empty_queue].
  unfold Context.run, context_switch.
  rewrite (run_loop_idle n R t self (set_thread_local t (Some (Some self)) w)); done.
Qed.

Lemma run_waits_on_empty_queue_witness :
  done (contexts Fixtures.world0 0) = false ∧
  event_queue (contexts Fixtures.world0 0) = [] ∧
  Context.run 5 Fixtures.first_1_then_2 0 0 Fixtures.world0 = None.
Proof.
  split; [reflexivity|]. split; [reflexivity|].
  apply (run_waits_on_empty_queue 5 Fixtures.first_1_then_2 0 0 Fixtures.world0);
    reflexivity.
Defined.

(** An exception that leaves a turn ends the loop: when the first turn
    of [run] raises, [run] raises the same exception with the world as
    that turn left it, so the events that remain in the queue are not
    dispatched. *)
Theorem run_raises_what_a_turn_raises n R t self w x :
  done (contexts w self) = false →
  result (Context._handle_one R t self (set_thread_local t (Some (Some self)) w))
    = Raise x →
  Context.run (S n) R t self w
    = Some (mkOutcome (Raise x)
              (final (Context._handle_one R t self
                        (set_thread_local t (Some (Some self)) w)))
              (calls (Context._handle_one R t self
                        (set_thread_local t (Some (Some self)) w)))).
Proof.
  intros Hd Hx. unfold Context.run.
  assert (Hloop : Context.run_loop (S n) R t self (set_thread_local t (Some (Some self)) w)
                  = mkOutcome (Raise x)
                      (final (Context._handle_one R t self
                                (set_thread_local t (Some (Some self)) w)))
                      (calls (Context._handle_one R t self
                                (set_thread_local t (Some (Some self)) w)))).
  { rewrite run_loop_unfold, current_context_contexts, Hd.
    by rewrite (bind_Raise _ _ _ _ Hx). }
  assert (Hres : result (Context.run_loop (S n) R t self
                           (set_thread_local t (Some (Some self)) w)) = Raise x).
  { by rewrite Hloop. }
  rewrite (context_switch_raise t (Some self) _ w x Hres), Hloop. by outcome.
Qed.

Lemma run_raises_what_a_turn_raises_witness :
  done (contexts Fixtures.world_tick 0) = false ∧
  Context.run 1 (Fixtures.rule_with_action (Fixtures.raises AssertionError)) 0 0
    Fixtures.world_tick
  = Some (mkOutcome (Raise AssertionError)
            (final (Context._handle_one
                      (Fixtures.rule_with_action (Fixtures.raises AssertionError)) 0 0
                      (set_thread_local 0 (Some (Some 0)) Fixtures.world_tick)))
            (calls (Context._handle_one
                      (Fixtures.rule_with_action (Fixtures.raises AssertionError)) 0 0
                      (set_thread_local 0 (Some (Some 0)) Fixtures.world_tick)))).
Proof.
  split; [reflexivity|].
  apply (run_raises_what_a_turn_raises 0
           (Fixtures.rule_with_action (Fixtures.raises AssertionError)) 0 0
           Fixtures.world_tick AssertionError); reflexivity.
Defined.

(** * Attribute lookup, emission and the dispatch step *)

(** ** Attribute lookup on an event *)

(** C7 as stated fails: [name] is absent from the data mapping of the
    first event and the lookup of [name] does not fail, it gives the
    name of the event; [name] is present in the mapping of the second
    event and the lookup does not give the value mapped to it. *)
Lemma Event_name_attribute_shadows_data :
  Event.data (Event.mk "tick" ∅) !! "name" = None ∧
  Event.getattr Event.class_body (Event.mk "tick" ∅) "name"
    = Ok (Event.Value (PStr "tick")) ∧
  Event.data (Event.mk "login" {[ "name" := PStr "zzz" ]}) !! "name" = Some (PStr "zzz") ∧
  Event.getattr Event.class_body (Event.mk "login" {[ "name" := PStr "zzz" ]}) "name"
    = Ok (Event.Value (PStr "login")).
Proof. split_and!; reflexivity. Qed.

(** C7, as the code has it: for a name that is neither [name] nor
    [data] nor a name that the class defines, the lookup of an
    attribute on an event goes to the data mapping: it raises the key
    error of the mapping when the name is absent from it and gives the
    mapped value when the name is present.  The lookup of [name] and of
    [data] gives the name of the event and its data mapping, whatever
    the mapping holds. *)
Theorem Event_attribute_lookup (on_class : string → bool) (e : Event.t) (n : string) :
  n ≠ "name" → n ≠ "data" → on_class n = false →
  (Event.data e !! n = None → Event.getattr on_class e n = Raise (KeyError n)) ∧
  (∀ v, Event.data e !! n = Some v → Event.getattr on_class e n = Ok (Event.Value v)) ∧
  Event.getattr on_class e "name" = Ok (Event.Value (PStr (Event.name e))) ∧
  Event.getattr on_class e "data" = Ok (Event.Value (PDict (Event.data e))).
Proof.
  intros Hname Hdata Hclass.
  assert (Hinst : Event.instance_attribute e n = None).
  { unfold Event.instance_attribute. by rewrite !decide_False. }
  destruct (getattr_hook_absent_present e n) as [Habsent Hpresent].
  split_and!; try reflexivity.
  - intros Hn. unfold Event.getattr. by rewrite Hinst, Hclass, (Habsent Hn).
  - intros v Hn. unfold Event.getattr. by rewrite Hinst, Hclass, (Hpresent v Hn).
Qed.

Lemma Event_attribute_lookup_witness :
  "user" ≠ "name" ∧ "user" ≠ "data" ∧ Event.class_body "user" = false ∧
  Event.getattr Event.class_body (Event.mk "login" {[ "user" := PStr "admin" ]}) "user"
    = Ok (Event.Value (PStr "admin")) ∧
  Event.getattr Event.class_body (Event.mk "login" {[ "user" := PStr "admin" ]}) "host"
    = Raise (KeyError "host").
Proof.
  split; [discriminate|]. split; [discriminate|]. split; [reflexivity|]. split.
  - apply (Event_attribute_lookup Event.class_body
             (Event.mk "login" {[ "user" := PStr "admin" ]}) "user");
      [discriminate | discriminate | reflexivity | reflexivity].
  - apply (Event_attribute_lookup Event.class_body
             (Event.mk "login" {[ "user" := PStr "admin" ]}) "host");
      [discriminate | discriminate | reflexivity | reflexivity].
Defined.

(** ** Emission *)

(** C5, as the code has it.  For a data argument that is [None], falsy
    or a mapping ([data or {}] is the mapping [d]): with no context
    bound for the calling thread the call raises the error that says
    so and leaves the world as it was, no queue changed; with a context
    bound it returns normally after appending the event, made of the
    given name and of [d], to the queue of that context, leaving every
    other context, the fields of that one and the bindings as they
    were, and it calls no condition and no action.  For every data
    argument that is truthy and not a mapping, the call raises the
    assertion error of the construction of the event, whether a
    context is bound or not, and leaves the world as it was. *)
Theorem new_event_enqueues_on_current_context t eventname data w :
  (∀ d, py_or data (PDict ∅) = PDict d →
     (current_context t w = None →
      new_event t eventname data w
        = mkOutcome (Raise (NotImplementedError no_current_context)) w []) ∧
     (∀ c, current_context t w = Some c →
        result (new_event t eventname data w) = Ok tt ∧
        calls (new_event t eventname data w) = [] ∧
        event_queue (contexts (final (new_event t eventname data w)) c)
          = event_queue (contexts w c) ++ [Event.mk eventname d] ∧
        scope (contexts (final (new_event t eventname data w)) c) = scope (contexts w c) ∧
        done (contexts (final (new_event t eventname data w)) c) = done (contexts w c) ∧
        trace (contexts (final (new_event t eventname data w)) c) = trace (contexts w c) ∧
        (∀ c', c' ≠ c →
               contexts (final (new_event t eventname data w)) c' = contexts w c') ∧
        thread_local (final (new_event t eventname data w)) = thread_local w)) ∧
  (py_truthy data = true → is_Mapping data = false →
   new_event t eventname data w = mkOutcome (Raise AssertionError) w []).
Proof.
  split.
  - intros d Hd. split.
    + by apply (new_event_unbound t eventname data d).
    + intros c Hc. rewrite (new_event_bound t eventname data d w c Hd Hc).
      apply receive_event_spec.
  - intros Ht Hm.
    assert (He : result (lift (Event.__init__ eventname data) w) = Raise AssertionError).
    { simpl. apply Event_init_Raise. split; [done|]. unfold py_or. by rewrite Ht. }
    unfold new_event. by rewrite (bind_Raise _ _ _ _ He).
Qed.

Lemma new_event_enqueues_on_current_context_witness :
  py_or PNone (PDict ∅) = PDict ∅ ∧
  current_context 0 Fixtures.world_A = Some 1 ∧
  event_queue (contexts (final (new_event 0 "ping" PNone Fixtures.world_A)) 1)
    = event_queue (contexts Fixtures.world_A 1) ++ [Event.mk "ping" ∅] ∧
  py_truthy (PStr "abc") = true ∧ is_Mapping (PStr "abc") = false ∧
  new_event 0 "ping" (PStr "abc") Fixtures.world_A
    = mkOutcome (Raise AssertionError) Fixtures.world_A [].
Proof.
  split; [reflexivity|]. split; [reflexivity|]. split.
  - destruct (new_event_enqueues_on_current_context 0 "ping" PNone Fixtures.world_A)
      as [Hmapping _].
    destruct (Hmapping ∅) as [_ Hbound]; [reflexivity|].
    destruct (Hbound 1) as (_ & _ & Hq & _); [reflexivity|]. exact Hq.
  - split; [reflexivity|]. split; [reflexivity|].
    apply (new_event_enqueues_on_current_context 0 "ping" (PStr "abc") Fixtures.world_A);
      reflexivity.
Defined.

(** ** The dispatch step *)

Lemma eval_conditions_total t self e r (conditions : list Callable) :
  Forall never_raises conditions →
  ∀ i w, ∃ results,
    result (Context.eval_conditions t self e r i conditions w) = Ok results.
Proof.
  induction 1 as [|c cs Hc _ IH]; intros i w; simpl; [by eexists|].
  destruct (Hc t self e w) as [v Hv].
  assert (Hinv : result (invoke c (CondCall r i self e) t self e w) = Ok v).
  { by rewrite invoke_result. }
  rewrite (bind_Ok _ _ _ _ Hinv). outcome.
  destruct (IH (S i) (final (invoke c (CondCall r i self e) t self e w))) as [vs Hvs].
  rewrite (bind_Ok _ _ _ _ Hvs). outcome. by eexists.
Qed.

Lemma handle_candidate_total R t self e r w :
  never_raising_rule R r →
  result (Context.handle_candidate R t self e r w) = Ok tt.
Proof.
  intros [Hcode (conditions & Hc & Hconds)]. unfold Context.handle_candidate. rewrite Hc.
  destruct (eval_conditions_total t self e r conditions Hconds 0 w) as [results Hres].
  rewrite (bind_Ok _ _ _ _ Hres). outcome.
  destruct (Nat.eqb _ _); [|done].
  set (w1 := final _).
  destruct (trace_calls self (RuleLine r) w1) as [_ Htr].
  rewrite (bind_Ok _ _ _ _ Htr). outcome.
  set (w2 := final _).
  destruct (Hcode t self e w2) as [v Hv].
  assert (Hinv : result (invoke (fn_code R r) (ActionCall r self e) t self e w2) = Ok v).
  { by rewrite invoke_result. }
  by rewrite (bind_Ok _ _ _ _ Hinv).
Qed.

(** When no candidate raises, the turn of every candidate comes: what
    the loop calls of the candidate [r] is what the body of the loop
    calls of it in the world [w'] in which its turn starts. *)
Lemma for_each_reaches R t self e (cs : list fn_id) r :
  (∀ r', r' ∈ cs → never_raising_rule R r') → NoDup cs → r ∈ cs →
  ∀ w, ∃ w', ∀ call, callee call = r →
    (call ∈ calls (for_each (Context.handle_candidate R t self e) cs w)
     ↔ call ∈ calls (Context.handle_candidate R t self e r w')).
Proof.
  induction cs as [|r0 cs IH]; intros Hquiet Hnd Hr w; [by apply elem_of_nil in Hr|].
  apply NoDup_cons in Hnd as [Hr0 Hnd].
  assert (Hhead : result (Context.handle_candidate R t self e r0 w) = Ok tt).
  { apply handle_candidate_total, Hquiet. by left. }
  assert (Hcalls : ∀ call,
            call ∈ calls (for_each (Context.handle_candidate R t self e) (r0 :: cs) w)
            ↔ call ∈ calls (Context.handle_candidate R t self e r0 w) ∨
              call ∈ calls (for_each (Context.handle_candidate R t self e) cs
                              (final (Context.handle_candidate R t self e r0 w)))).
  { intros call. rewrite for_each_cons_calls, Hhead. apply elem_of_app. }
  apply elem_of_cons in Hr as [->|Hr].
  - exists w. intros call Hcallee. rewrite Hcalls. split; [|by left].
    intros [?|Hin]; [done|].
    apply for_each_calls_elem in Hin as [Hin _]. by rewrite Hcallee in Hin.
  - destruct (IH (λ r' Hr', Hquiet r' (list_elem_of_further _ _ _ Hr')) Hnd Hr
                (final (Context.handle_candidate R t self e r0 w))) as [w' Hw'].
    exists w'. intros call Hcallee. rewrite Hcalls, <- (Hw' call Hcallee).
    split; [|by right]. intros [Hin|?]; [|done].
    apply handle_candidate_calls_elem in Hin as [Hin _].
    rewrite Hcallee in Hin. by subst.
Qed.

Lemma candidates_NoDup R e cs : Context.candidates R e = Ok cs → NoDup cs.
Proof.
  intros Hcs. apply (sublist_NoDup cs (elements (rules R))); [apply NoDup_elements|].
  eapply select_candidates_sublist, Hcs.
Qed.

Lemma handle_one_reaches R t self w e q cs r :
  event_queue (contexts w self) = e :: q →
  Context.candidates R e = Ok cs →
  (∀ r', r' ∈ cs → never_raising_rule R r') → r ∈ cs →
  ∃ w', ∀ call, callee call = r →
    (call ∈ calls (Context._handle_one R t self w)
     ↔ call ∈ calls (Context.handle_candidate R t self e r w')).
Proof.
  intros Hq Hcs Hquiet Hr.
  destruct (handle_one_dispatch R t self w e q cs Hq Hcs) as [w1 ->].
  apply for_each_reaches; [done | by eapply candidates_NoDup | done].
Qed.

(** What the turn of a candidate whose conditions and action never
    raise calls and why: the values [results] are what its conditions
    returned, each in the world in which it was called. *)
Lemma candidate_turn R t self e r (conditions : list Callable) w :
  fn_conditions R !! r = Some conditions → Forall never_raises conditions →
  ∃ results,
    length results = length conditions ∧
    (∀ i v, results !! i = Some v →
            ∃ c wi, conditions !! i = Some c ∧ (c t self e wi).1 = Ok v) ∧
    (∀ i, i < length conditions →
          CondCall r i self e ∈ calls (Context.handle_candidate R t self e r w)) ∧
    (ActionCall r self e ∈ calls (Context.handle_candidate R t self e r w)
     ↔ ∀ v, v ∈ results → py_eq_False v = false).
Proof.
  intros Hc Hconds.
  destruct (eval_conditions_total t self e r conditions Hconds 0 w) as [results Hres].
  exists results.
  destruct (eval_conditions_calls _ _ _ _ _ _ _ _ Hres) as [_ Hlen].
  split_and!; [done | | |].
  - by apply (eval_conditions_results t self e r conditions 0 w).
  - intros i Hi. rewrite (handle_candidate_calls _ _ _ _ _ _ _ _ Hc Hres).
    apply elem_of_app. left. by apply cond_calls_elem.
  - rewrite (action_call_iff _ _ _ _ _ _ _ _ Hc Hres), count_False_0.
    apply Forall_forall.
Qed.

(** C1: when an event [e] is taken from the queue of a context, the
    dispatch step removes it from the queue and runs the body of its
    loop on the candidates, which are exactly the functions of the
    registry whose [events] attribute has the name of [e], each once.
    Every condition or action that the step calls belongs to a
    candidate and is called on [e], so a rule whose [events] set is
    empty, or lacks the name of [e], is no candidate and has none of
    its conditions evaluated; and when no candidate raises, every
    candidate is taken up: each of its conditions is evaluated, and its
    action is invoked when it has no condition. *)
Theorem candidates_are_rules_on_event_name R t self w e q :
  registry_wf R →
  event_queue (contexts w self) = e :: q →
  ∃ cs, Context.candidates R e = Ok cs ∧ NoDup cs ∧
    (∀ r, r ∈ cs ↔
          r ∈ rules R ∧ ∃ evs, fn_events R !! r = Some evs ∧ Event.name e ∈ evs) ∧
    (∃ w1, event_queue (contexts w1 self) = q ∧
           scope (contexts w1 self) = scope (contexts w self) ∧
           (∀ c, c ≠ self → contexts w1 c = contexts w c) ∧
           thread_local w1 = thread_local w ∧
           Context._handle_one R t self w
             = except_QueueEmpty_pass
                 (for_each (Context.handle_candidate R t self e) cs) w1) ∧
    (∀ call, call ∈ calls (Context._handle_one R t self w) →
             callee call ∈ cs ∧ call_event call = e) ∧
    (∀ r evs, fn_events R !! r = Some evs → Event.name e ∉ evs →
              (r ∉ cs) ∧
              (∀ call, call ∈ calls (Context._handle_one R t self w) → callee call ≠ r)) ∧
    ((∀ r, r ∈ cs → never_raising_rule R r) →
     ∀ r (conditions : list Callable), r ∈ cs → fn_conditions R !! r = Some conditions →
       (∀ i, i < length conditions →
             CondCall r i self e ∈ calls (Context._handle_one R t self w)) ∧
       (conditions = [] → ActionCall r self e ∈ calls (Context._handle_one R t self w))).
Proof.
  intros Hwf Hq.
  destruct (select_candidates_Ok R e (elements (rules R))) as (cs & Hcs & Hiff).
  { intros r Hr%elem_of_elements. by apply Hwf. }
  assert (Hmem : ∀ r, r ∈ cs ↔
            r ∈ rules R ∧ ∃ evs, fn_events R !! r = Some evs ∧ Event.name e ∈ evs).
  { intros r. rewrite Hiff. by rewrite elem_of_elements. }
  assert (Hcalls : ∀ call, call ∈ calls (Context._handle_one R t self w) →
            callee call ∈ cs ∧ call_event call = e).
  { intros call Hcall.
    destruct (handle_one_dispatch R t self w e q cs Hq Hcs) as [w1 Hw1].
    rewrite Hw1 in Hcall. by apply for_each_calls_elem in Hcall as (? & _ & ?). }
  assert (Hnot : ∀ r evs, fn_events R !! r = Some evs → Event.name e ∉ evs → r ∉ cs).
  { intros r evs Hevs Hn (_ & evs' & Hevs' & Hin)%Hmem. congruence. }
  exists cs. split_and!; try done.
  - by apply (candidates_NoDup R e).
  - destruct (handle_one_dequeue R t self w e q Hq) as (w1 & ? & ? & _ & ? & ? & ->).
    exists w1. split_and!; try done.
    apply except_QueueEmpty_pass_eta.
    assert (Hl : result (lift (Context.candidates R e) w1) = Ok cs) by (by rewrite <- Hcs).
    rewrite (bind_Ok _ _ _ _ Hl). by outcome.
  - intros r evs Hevs Hn. split; [by eapply Hnot|].
    intros call [Hc _]%Hcalls Heq. rewrite Heq in Hc. by eapply Hnot.
  - intros Hquiet r conditions Hr Hc.
    destruct (handle_one_reaches R t self w e q cs r Hq Hcs Hquiet Hr) as [w' Hw'].
    destruct (Hquiet r Hr) as [_ (conditions' & Hc' & Hconds)].
    assert (conditions' = conditions) as -> by congruence.
    destruct (candidate_turn R t self e r conditions w' Hc Hconds)
      as (results & Hlen & _ & Hcond & Haction).
    split.
    + intros i Hi. apply Hw'; [done|]. by apply Hcond.
    + intros ->. apply Hw'; [done|]. apply Haction.
      destruct results; [|done]. by intros v ?%elem_of_nil.
Qed.

Lemma mixed_rules_wf : registry_wf Fixtures.mixed_rules.
Proof.
  unfold Fixtures.mixed_rules. rewrite condition_register, !event_register.
  do 3 apply register_wf. apply initial_registry_wf.
Defined.

Lemma returns_never_raises v : never_raises (Fixtures.returns v).
Proof. intros t scope e w. by exists v. Defined.

(** [candidates_are_rules_on_event_name] on a registry in which
    function [1] is on [tick], function [2] on [tock] and function [3]
    on no event, when context [0] has [tick] in its queue: function [1]
    is the one candidate and its action is invoked, and nothing of the
    functions [2] and [3] is called. *)
Lemma candidates_are_rules_on_event_name_witness :
  registry_wf Fixtures.mixed_rules ∧
  event_queue (contexts Fixtures.world_tick 0) = [Fixtures.tick] ∧
  fn_events Fixtures.mixed_rules !! 2%positive = Some {[ "tock" ]} ∧
  fn_events Fixtures.mixed_rules !! 3%positive = Some ∅ ∧
  ∃ cs, Context.candidates Fixtures.mixed_rules Fixtures.tick = Ok cs ∧
        1%positive ∈ cs ∧ (2%positive ∉ cs) ∧ (3%positive ∉ cs) ∧
        ActionCall 1 0 Fixtures.tick
          ∈ calls (Context._handle_one Fixtures.mixed_rules 0 0 Fixtures.world_tick) ∧
        (∀ call,
           call ∈ calls (Context._handle_one Fixtures.mixed_rules 0 0 Fixtures.world_tick) →
           callee call ≠ 2%positive ∧ callee call ≠ 3%positive).
Proof.
  split; [exact mixed_rules_wf|]. split; [reflexivity|].
  split; [reflexivity|]. split; [reflexivity|].
  destruct (candidates_are_rules_on_event_name Fixtures.mixed_rules 0 0
              Fixtures.world_tick Fixtures.tick [] mixed_rules_wf eq_refl)
    as (cs & Hcs & _ & Hmem & _ & _ & Hout & Hin).
  assert (H1 : 1%positive ∈ cs).
  { apply Hmem. split.
    - unfold Fixtures.mixed_rules.
      rewrite condition_register, !event_register, !register_rules. set_solver.
    - exists {[ "tick" ]}. split; [reflexivity|]. by apply elem_of_singleton_2. }
  destruct (Hout 2%positive {[ "tock" ]}) as [H2 H2'];
    [reflexivity | by intros [=]%elem_of_singleton|].
  destruct (Hout 3%positive ∅) as [H3 H3']; [reflexivity | apply not_elem_of_empty|].
  exists cs. split_and!; try done.
  - assert (Hquiet : ∀ r, r ∈ cs → never_raising_rule Fixtures.mixed_rules r).
    { intros r Hr. split; [apply returns_never_raises|].
      apply Hmem in Hr as [Hr _].
      destruct (mixed_rules_wf r Hr) as [[conditions Hc] _].
      exists conditions. split; [done|].
      destruct (decide (r = 3%positive)) as [->|Hr3].
      - injection Hc as <-. repeat constructor. apply returns_never_raises.
      - assert (conditions = []) as ->; [|constructor].
        unfold Fixtures.mixed_rules in Hc.
        rewrite condition_conditions, decide_False in Hc by done.
        rewrite !event_register, !register_conditions in Hc.
        repeat case_decide; by simplify_eq. }
    by apply (Hin Hquiet 1%positive []).
  - intros call Hcall. split; [by apply H2' | by apply H3'].
Defined.




(** ** The order of the dispatch *)

Lemma handle_one_iterating_elements R t self w :
  Context._handle_one R t self w
    = Context._handle_one_iterating (elements (rules R)) R t self w.
Proof. reflexivity. Qed.

Lemma handle_one_iterating_calls_cases iter R t self w :
  calls (Context._handle_one_iterating iter R t self w) = [] ∨
  ∃ e q cs w1,
    event_queue (contexts w self) = e :: q ∧
    Context.select_candidates R e iter = Ok cs ∧
    calls (Context._handle_one_iterating iter R t self w)
      = calls (for_each (Context.handle_candidate R t self e) cs w1).
Proof.
  unfold Context._handle_one_iterating. rewrite except_QueueEmpty_pass_calls.
  destruct (event_queue (contexts w self)) as [|e q] eqn:Hq.
  - left. unfold bind, Context.event_queue_get. by rewrite Hq.
  - assert (Hget : result (Context.event_queue_get self w) = Ok e).
    { unfold Context.event_queue_get. by rewrite Hq. }
    assert (Hgetc : calls (Context.event_queue_get self w) = []).
    { unfold Context.event_queue_get. by rewrite Hq. }
    rewrite (bind_Ok _ _ _ _ Hget). outcome. rewrite Hgetc.
    set (w0 := final (Context.event_queue_get self w)).
    destruct (trace_calls self (WorkingOnEvent e) w0) as [Htc Htr].
    rewrite (bind_Ok _ _ _ _ Htr). outcome. rewrite Htc.
    set (w1 := final (Context._trace self (WorkingOnEvent e) w0)).
    destruct (Context.select_candidates R e iter) as [cs|x] eqn:Hcs.
    + right. by exists e, q, cs, w1.
    + by left.
Qed.

Lemma filter_elem_of_ext (l1 l2 k : list fn_id) :
  (∀ y, y ∈ k → (y ∈ l1 ↔ y ∈ l2)) →
  filter (λ x, x ∈ l1) k = filter (λ x, x ∈ l2) k.
Proof.
  induction k as [|y k IH]; intros Hext; [done|].
  rewrite !filter_cons, IH by (intros; apply Hext; by right).
  destruct (decide (y ∈ l1)) as [Hy|Hy].
  - rewrite decide_True; [done|]. apply Hext; [by left | done].
  - rewrite decide_False; [done|]. intros Hy'. apply Hy, Hext; [by left | done].
Qed.

Lemma sublist_NoDup_filter (k : list fn_id) :
  ∀ l, l `sublist_of` k → NoDup k → l = filter (λ x, x ∈ l) k.
Proof.
  induction k as [|x k IH]; intros l Hsub Hnd.
  - by apply sublist_nil_r in Hsub as ->.
  - apply NoDup_cons in Hnd as [Hx Hnd].
    apply sublist_cons_r in Hsub as [Hsub|(l' & -> & Hsub)].
    + assert (Hxl : x ∉ l). { intros Hin. apply Hx. by eapply elem_of_sublist. }
      rewrite filter_cons, decide_False by done. by apply IH.
    + rewrite filter_cons, decide_True by left. f_equal.
      rewrite (IH l' Hsub Hnd) at 1. apply filter_elem_of_ext.
      intros y Hy. rewrite elem_of_cons.
      split; [by right|]. intros [->|?]; done.
Qed.

Lemma select_candidates_filter R e (rs : list fn_id) :
  (∀ r, r ∈ rs → is_Some (fn_events R !! r)) →
  Context.select_candidates R e rs
    = Ok (filter (λ r, Event.name e ∈ default ∅ (fn_events R !! r)) rs).
Proof.
  induction rs as [|r rs IH]; intros Hwf; simpl; [done|].
  destruct (Hwf r) as [evs Hevs]; [left|].
  rewrite IH by (intros; apply Hwf; by right).
  rewrite filter_cons, Hevs. simpl. by case_bool_decide; case_decide.
Qed.

(** C6, as the code has it: whatever order the iteration of the
    [rules] set has, the candidates are the matching rules in that
    order, and the actions that the turn invokes are invoked in that
    order, each once; the order of the actions is the order of the
    iteration, which nothing in the registration decides. *)
Theorem actions_run_in_set_iteration_order R (iter : list fn_id) t self w :
  set_iteration R iter →
  actions_of (calls (Context._handle_one_iterating iter R t self w))
    = filter (λ r, r ∈ actions_of (calls (Context._handle_one_iterating iter R t self w)))
        iter ∧
  (registry_wf R →
   ∀ e, Context.select_candidates R e iter
        = Ok (filter (λ r, Event.name e ∈ default ∅ (fn_events R !! r)) iter)) ∧
  set_iteration R (elements (rules R)) ∧
  Context._handle_one R t self w
    = Context._handle_one_iterating (elements (rules R)) R t self w.
Proof.
  intros [Hnd Hiter]. split_and!.
  - apply sublist_NoDup_filter; [|done].
    destruct (handle_one_iterating_calls_cases iter R t self w)
      as [->|(e & q & cs & w1 & _ & Hcs & ->)].
    + apply sublist_nil_l.
    + etrans; [apply for_each_actions_sublist|].
      eapply select_candidates_sublist, Hcs.
  - intros Hwf e. apply select_candidates_filter.
    intros r Hr%Hiter. by apply Hwf.
  - split; [apply NoDup_elements|]. intros r. apply elem_of_elements.
  - reflexivity.
Qed.

Lemma iteration_2_1 : set_iteration Fixtures.first_1_then_2 [2; 1]%positive.
Proof.
  split.
  - apply NoDup_cons. split; [by intros [=]%list_elem_of_singleton|].
    apply NoDup_singleton.
  - intros r. unfold Fixtures.first_1_then_2.
    rewrite !event_register, !register_rules. cbn [rules initial_registry].
    rewrite !elem_of_cons, !elem_of_union, !elem_of_singleton.
    split; [intros [->|[->|[]%elem_of_nil]]; auto|].
    intros [[[]%not_elem_of_empty| ->]| ->]; auto.
Defined.

(** C6 as stated fails: function [1] is registered before function
    [2], both are on [tick] without conditions, and when the iteration
    of the set yields [2] before [1], as the iteration of a set may
    whatever the order of the insertions, the action of [2] is invoked
    first. *)
Lemma later_registered_action_runs_first :
  Fixtures.first_1_then_2
    = register 2 (AttachEvent "tick")
        (register 1 (AttachEvent "tick") (initial_registry Fixtures.code)) ∧
  set_iteration Fixtures.first_1_then_2 [2; 1]%positive ∧
  actions_of (calls (Context._handle_one_iterating [2; 1]%positive
                       Fixtures.first_1_then_2 0 0 Fixtures.world_tick))
    = [2; 1]%positive.
Proof. split; [reflexivity|]. split; [exact iteration_2_1 | reflexivity]. Qed.

(** [actions_run_in_set_iteration_order] on the two iterations of the
    set of the functions [1] and [2]. *)
Lemma actions_run_in_set_iteration_order_witness :
  set_iteration Fixtures.first_1_then_2 [2; 1]%positive ∧
  Context.select_candidates Fixtures.first_1_then_2 Fixtures.tick [2; 1]%positive
    = Ok (filter (λ r, Event.name Fixtures.tick
                        ∈ default ∅ (fn_events Fixtures.first_1_then_2 !! r))
            [2; 1]%positive).
Proof.
  split; [exact iteration_2_1|].
  destruct (actions_run_in_set_iteration_order Fixtures.first_1_then_2 [2; 1]%positive
              0 0 Fixtures.world_tick iteration_2_1) as (_ & Hcs & _).
  apply Hcs. exact first_1_then_2_wf.
Defined.
